(** * Black-Scholes-Merton notebook: closed-form and binomial-lattice pricers

    A shallow embedding of [Notebooks/BlackScholesMerton.ipynb]
    ([blackScholesCall], [callPayoff], [putPayoff], [binomialPricer]) and the
    properties of its specification.

    Numbers.  Python floats and numpy [float64] values are read as real
    numbers: arithmetic on finite values is exact (no rounding, no overflow,
    no underflow).  What IEEE-754 arithmetic does outside the finite reals is
    kept: numpy returns [inf], [-inf] or [nan] (with a RuntimeWarning) where
    Python itself raises, so numpy values live in [float64] below, which adds
    the two infinities and NaN to the reals.  The model has one zero, read as
    [+0.0].  The two payoff functions use nothing but subtraction and
    comparison, so for them the rounded arithmetic is given as well, on
    IEEE-754 binary64 values (module [Binary64]).

    Layout.  Part 1 builds the standard normal distribution function from the
    Gaussian kernel.  Part 2 is the numeric layer (numpy, scipy.stats, Python
    division).  Part 3 is the notebook.  Part 4 holds the reference formulas
    of the specification, Part 5 the theorems about them, Part 6 further
    properties of the notebook's functions and of its last cell. *)

From Stdlib Require Import Reals Lra Lia ZArith List Bool String.
From Stdlib Require Floats.
Import ListNotations.
Open Scope R_scope.

(* ================================================================= *)
(** * Part 1. The standard normal distribution function *)

Module Gaussian.

(** The unnormalised density [exp (- t^2 / 2)]. *)
Definition kernel (t : R) : R := exp (- (t * t) / 2).

Lemma kernel_pos (x : R) : 0 < kernel x.
Proof. apply exp_pos. Qed.

Lemma kernel_even (x : R) : kernel (- x) = kernel x.
Proof. unfold kernel. f_equal. field. Qed.

Lemma kernel_deriv (x : R) : derivable_pt_lim kernel x (- x * kernel x).
Proof.
  unfold kernel.
  replace (- x * exp (- (x * x) / 2)) with (exp (- (x * x) / 2) * (- x)) by ring.
  apply (derivable_pt_lim_comp (fun t => - (t * t) / 2) exp).
  - replace (- x) with ((- (1 * x + x * 1)) * / 2) by field.
    apply (derivable_pt_lim_scal_right (fun t => - (t * t))).
    apply (derivable_pt_lim_opp (fun t => t * t)).
    apply (derivable_pt_lim_mult id id); apply derivable_pt_lim_id.
  - apply derivable_pt_lim_exp.
Qed.

Lemma kernel_continuous : continuity kernel.
Proof.
  intro x. apply derivable_continuous_pt.
  exists (- x * kernel x). apply kernel_deriv.
Qed.

Lemma kernel_integrable (a b : R) : Riemann_integrable kernel a b.
Proof.
  destruct (Rle_dec a b) as [h | h].
  - apply continuity_implies_RiemannInt; [exact h | intros; apply kernel_continuous].
  - apply RiemannInt_P1.
    apply continuity_implies_RiemannInt; [lra | intros; apply kernel_continuous].
Defined.

(** [integral a b] is the Riemann integral of the kernel from [a] to [b];
    [prim x] is its primitive vanishing at [0]. *)
Definition integral (a b : R) : R := RiemannInt (kernel_integrable a b).
Definition prim (x : R) : R := integral 0 x.

Lemma integral_chasles (a b c : R) : integral a b + integral b c = integral a c.
Proof. unfold integral. apply RiemannInt_P26. Qed.

Lemma prim_0 : prim 0 = 0.
Proof. unfold prim, integral. apply RiemannInt_P9. Qed.

Lemma prim_deriv (x : R) : derivable_pt_lim prim x (kernel x).
Proof.
  assert (h : x - 1 <= x + 1) by lra.
  assert (C0 : forall y, x - 1 <= y <= x + 1 -> continuity_pt kernel y)
    by (intros; apply kernel_continuous).
  pose (F := fun y => prim (x - 1) + primitive h (FTC_P1 h C0) y).
  apply (derivable_pt_lim_locally_ext F prim x (x - 1) (x + 1)).
  - lra.
  - intros z Hz. unfold F, primitive.
    destruct (Rle_dec (x - 1) z) as [r | r]; [ | lra].
    destruct (Rle_dec z (x + 1)) as [r0 | r0]; [ | lra].
    unfold prim. rewrite <- (integral_chasles 0 (x - 1) z).
    f_equal. unfold integral. apply RiemannInt_P5.
  - unfold F. replace (kernel x) with (0 + kernel x) by ring.
    apply (derivable_pt_lim_plus (fct_cte (prim (x - 1)))).
    + apply derivable_pt_lim_const.
    + apply RiemannInt_P27. lra.
Qed.

(** Two consequences of the mean value theorem, in the form used here. *)
Lemma deriv_nonneg_le (f f' : R -> R) (a b : R) :
  a <= b ->
  (forall c, a <= c <= b -> derivable_pt_lim f c (f' c)) ->
  (forall c, a < c < b -> 0 <= f' c) ->
  f a <= f b.
Proof.
  intros Hab Hd Hp.
  destruct Hab as [Hlt | ->]; [ | lra].
  destruct (MVT_cor2 f f' a b Hlt Hd) as [c [Hc Hin]].
  specialize (Hp c Hin). nra.
Qed.

Lemma deriv_pos_lt (f f' : R -> R) (a b : R) :
  a < b ->
  (forall c, a <= c <= b -> derivable_pt_lim f c (f' c)) ->
  (forall c, a < c < b -> 0 < f' c) ->
  f a < f b.
Proof.
  intros Hlt Hd Hp.
  destruct (MVT_cor2 f f' a b Hlt Hd) as [c [Hc Hin]].
  specialize (Hp c Hin). nra.
Qed.

Lemma prim_incr (x y : R) : x <= y -> prim x <= prim y.
Proof.
  intro H. apply (deriv_nonneg_le prim kernel); auto.
  - intros; apply prim_deriv.
  - intros; left; apply kernel_pos.
Qed.

Lemma prim_opp_deriv (x : R) :
  derivable_pt_lim (fun t => prim (- t)) x (- kernel x).
Proof.
  replace (- kernel x) with (kernel (- x) * (-1)) by (rewrite kernel_even; ring).
  apply (derivable_pt_lim_comp (fun t => - t) prim).
  - apply (derivable_pt_lim_opp id). apply derivable_pt_lim_id.
  - apply prim_deriv.
Qed.

(** The primitive of an even function vanishing at [0] is odd. *)
Lemma prim_odd (x : R) : prim (- x) = - prim x.
Proof.
  pose (D := fun t => prim t + prim (- t)).
  assert (HD : forall c, derivable_pt_lim D c ((fun _ => 0) c)).
  { intro c. unfold D. replace 0 with (kernel c + - kernel c) by ring.
    apply (derivable_pt_lim_plus prim (fun t => prim (- t))).
    - apply prim_deriv.
    - apply prim_opp_deriv. }
  assert (HD' : forall c, derivable_pt_lim (fun t => - D t) c ((fun _ => 0) c)).
  { intro c. replace 0 with (- 0) by ring.
    apply (derivable_pt_lim_opp D). apply HD. }
  assert (H0 : D 0 = 0) by (unfold D; rewrite Ropp_0, prim_0; ring).
  assert (Hc : D x = 0).
  { destruct (Rle_dec 0 x) as [h | h].
    - pose proof (deriv_nonneg_le D (fun _ => 0) 0 x h
                    (fun c _ => HD c) (fun _ _ => Rle_refl 0)).
      pose proof (deriv_nonneg_le (fun t => - D t) (fun _ => 0) 0 x h
                    (fun c _ => HD' c) (fun _ _ => Rle_refl 0)).
      simpl in *. lra.
    - assert (h' : x <= 0) by lra.
      pose proof (deriv_nonneg_le D (fun _ => 0) x 0 h'
                    (fun c _ => HD c) (fun _ _ => Rle_refl 0)).
      pose proof (deriv_nonneg_le (fun t => - D t) (fun _ => 0) x 0 h'
                    (fun c _ => HD' c) (fun _ _ => Rle_refl 0)).
      simpl in *. lra. }
  unfold D in Hc. lra.
Qed.

(** Tail bound: beyond [y > 0] the primitive gains at most [kernel y / y],
    because [kernel t <= (t / y) * kernel t] there and the right-hand side
    has the primitive [- kernel t / y]. *)
Lemma prim_tail (y z : R) : 0 < y -> y <= z -> prim z <= prim y + kernel y / y.
Proof.
  intros Hy Hyz.
  pose (K := fun t => (kernel y - kernel t) / y - prim t).
  assert (HK : forall c, derivable_pt_lim K c ((fun t => kernel t * (t / y - 1)) c)).
  { intro c. unfold K.
    replace (kernel c * (c / y - 1)) with ((0 - (- c * kernel c)) * / y - kernel c)
      by (field; lra).
    apply (derivable_pt_lim_minus (fun t => (kernel y - kernel t) / y) prim).
    - apply (derivable_pt_lim_scal_right (fun t => kernel y - kernel t)).
      apply (derivable_pt_lim_minus (fct_cte (kernel y)) kernel).
      + apply derivable_pt_lim_const.
      + apply kernel_deriv.
    - apply prim_deriv. }
  assert (H := deriv_nonneg_le K _ y z Hyz (fun c _ => HK c)).
  assert (Hnn : forall c, y < c < z -> 0 <= kernel c * (c / y - 1)).
  { intros c Hc. apply Rmult_le_pos; [left; apply kernel_pos | ].
    assert (1 < c / y); [ | lra].
    apply Rmult_lt_reg_r with y; [lra | ]. field_simplify; lra. }
  specialize (H Hnn). unfold K in H.
  assert (Hz : 0 < kernel z / y)
    by (apply Rdiv_lt_0_compat; [apply kernel_pos | lra]).
  unfold Rdiv in *. replace ((kernel y - kernel y) * / y) with 0 in H by ring.
  lra.
Qed.

(** The values of the primitive are bounded; their least upper bound is the
    mass of the kernel on the half-line [0, +oo), i.e. half the total mass
    (the Gaussian integral [sqrt (2 * PI)], a value this development never
    needs). *)
Definition prim_range (v : R) : Prop := exists x, v = prim x.

Lemma prim_range_bound : bound prim_range.
Proof.
  exists (prim 1 + kernel 1 / 1). intros v [x Hv]; subst v.
  destruct (Rle_dec 1 x) as [h | h].
  - apply prim_tail; lra.
  - assert (prim x <= prim 1) by (apply prim_incr; lra).
    pose proof (kernel_pos 1). lra.
Qed.

Lemma prim_range_inhabited : exists v, prim_range v.
Proof. exists (prim 0), 0. reflexivity. Qed.

Definition half_mass : R :=
  proj1_sig (completeness prim_range prim_range_bound prim_range_inhabited).

Lemma half_mass_ub (x : R) : prim x <= half_mass.
Proof.
  unfold half_mass. destruct (completeness _ _ _) as [m [Hub Hleast]]; simpl.
  apply Hub. exists x; reflexivity.
Qed.

Lemma half_mass_tail (y : R) : 0 < y -> half_mass <= prim y + kernel y / y.
Proof.
  intro Hy. unfold half_mass.
  destruct (completeness _ _ _) as [m [Hub Hleast]]; simpl.
  apply Hleast. intros v [x Hv]; subst v.
  destruct (Rle_dec y x) as [h | h].
  - apply prim_tail; lra.
  - assert (prim x <= prim y) by (apply prim_incr; lra).
    assert (0 < kernel y / y)
      by (apply Rdiv_lt_0_compat; [apply kernel_pos | lra]).
    lra.
Qed.

Lemma half_mass_pos : 0 < half_mass.
Proof.
  apply Rlt_le_trans with (prim 1); [ | apply half_mass_ub].
  rewrite <- prim_0. apply (deriv_pos_lt prim kernel); [lra | | ].
  - intros; apply prim_deriv.
  - intros; apply kernel_pos.
Qed.

(** The standard normal density and distribution function: the kernel
    normalised to total mass one, and the mass it puts on [(-oo, x]]. *)
Definition pdf (x : R) : R := kernel x / (2 * half_mass).
Definition cdf (x : R) : R := / 2 + prim x / (2 * half_mass).

Lemma cdf_opp (x : R) : cdf (- x) = 1 - cdf x.
Proof.
  unfold cdf. rewrite prim_odd. pose proof half_mass_pos. field. lra.
Qed.

Lemma cdf_nonneg (x : R) : 0 <= cdf x.
Proof.
  unfold cdf. pose proof half_mass_pos as Hp.
  pose proof (half_mass_ub (- x)) as Hu. rewrite prim_odd in Hu.
  assert (- 1 <= prim x / half_mass).
  { apply Rmult_le_reg_r with half_mass; [lra | ].
    unfold Rdiv. rewrite Rmult_assoc, Rinv_l; lra. }
  replace (prim x / (2 * half_mass)) with (/ 2 * (prim x / half_mass))
    by (field; lra).
  lra.
Qed.

Lemma cdf_le_1 (x : R) : cdf x <= 1.
Proof. pose proof (cdf_nonneg (- x)) as H. rewrite cdf_opp in H. lra. Qed.

Lemma cdf_incr (x y : R) : x <= y -> cdf x <= cdf y.
Proof.
  intro H. unfold cdf. pose proof half_mass_pos as Hp.
  apply Rplus_le_compat_l. unfold Rdiv.
  apply Rmult_le_compat_r; [ | apply prim_incr; exact H].
  left. apply Rinv_0_lt_compat. lra.
Qed.

Lemma cdf_deriv (x : R) : derivable_pt_lim cdf x (pdf x).
Proof.
  unfold cdf, pdf.
  replace (kernel x / (2 * half_mass)) with (0 + kernel x * / (2 * half_mass))
    by (unfold Rdiv; ring).
  apply (derivable_pt_lim_plus (fct_cte (/ 2)) (fun t => prim t / (2 * half_mass))).
  - apply derivable_pt_lim_const.
  - apply (derivable_pt_lim_scal_right prim). apply prim_deriv.
Qed.

(** The Mills-ratio bound [- x * cdf x <= pdf x]. *)
Lemma cdf_mills (x : R) : 0 <= x * cdf x + pdf x.
Proof.
  pose proof half_mass_pos as Hp.
  assert (Hpdf : 0 < pdf x).
  { unfold pdf. apply Rdiv_lt_0_compat; [apply kernel_pos | lra]. }
  destruct (Rle_dec 0 x) as [h | h].
  - pose proof (cdf_nonneg x). nra.
  - assert (Hy : 0 < - x) by lra.
    pose proof (half_mass_tail (- x) Hy) as Ht.
    rewrite prim_odd, kernel_even in Ht.
    assert (Hm : (- x) * (half_mass + prim x) <= kernel x).
    { assert (H : half_mass + prim x <= kernel x / - x) by lra.
      apply Rmult_le_compat_l with (r := - x) in H; [ | lra].
      replace (- x * (kernel x / - x)) with (kernel x) in H by (field; lra).
      lra. }
    unfold cdf, pdf.
    replace (x * (/ 2 + prim x / (2 * half_mass)) + kernel x / (2 * half_mass))
      with ((kernel x - (- x) * (half_mass + prim x)) * / (2 * half_mass))
      by (field; lra).
    apply Rmult_le_pos; [lra | ]. left. apply Rinv_0_lt_compat. lra.
Qed.

(** Hence [exp (x^2 / 2) * cdf x] is non-decreasing. *)
Lemma cdf_tilt_incr (x y : R) :
  x <= y -> exp (x * x / 2) * cdf x <= exp (y * y / 2) * cdf y.
Proof.
  intro H.
  apply (deriv_nonneg_le (fun t => exp (t * t / 2) * cdf t)
           (fun t => exp (t * t / 2) * (t * cdf t + pdf t))); auto.
  - intros c _.
    replace (exp (c * c / 2) * (c * cdf c + pdf c))
      with ((exp (c * c / 2) * c) * cdf c + exp (c * c / 2) * pdf c) by ring.
    apply (derivable_pt_lim_mult (fun t => exp (t * t / 2)) cdf).
    + apply (derivable_pt_lim_comp (fun t => t * t / 2) exp).
      * replace c with ((1 * c + c * 1) * / 2) at 2 by field.
        apply (derivable_pt_lim_scal_right (fun t => t * t)).
        apply (derivable_pt_lim_mult id id); apply derivable_pt_lim_id.
      * apply derivable_pt_lim_exp.
    + apply cdf_deriv.
  - intros c _. apply Rmult_le_pos; [left; apply exp_pos | apply cdf_mills].
Qed.

(** The distribution function is one half at the origin and tends to one
    at [+oo] and to zero at [-oo]: the upper tail is at most [pdf y / y]. *)
Lemma cdf_0 : cdf 0 = / 2.
Proof. unfold cdf. rewrite prim_0. unfold Rdiv. ring. Qed.

Lemma kernel_le_1 (x : R) : kernel x <= 1.
Proof.
  unfold kernel. rewrite <- exp_0.
  destruct (Req_dec_T x 0) as [-> | Hx].
  - right. f_equal. field.
  - left. apply exp_increasing. nra.
Qed.

Lemma cdf_upper_tail (y : R) : 0 < y -> 1 - cdf y <= pdf y / y.
Proof.
  intro Hy. pose proof half_mass_pos as Hp.
  pose proof (half_mass_tail y Hy) as Ht.
  unfold cdf, pdf.
  replace (1 - (/ 2 + prim y / (2 * half_mass)))
    with ((half_mass - prim y) * / (2 * half_mass)) by (field; lra).
  replace (kernel y / (2 * half_mass) / y)
    with (kernel y / y * / (2 * half_mass)) by (field; lra).
  apply Rmult_le_compat_r; [ | lra].
  left. apply Rinv_0_lt_compat. lra.
Qed.

Lemma cdf_limit_one (eps : R) :
  0 < eps -> exists x0, forall x, x0 <= x -> 1 - eps < cdf x.
Proof.
  intro He. pose proof half_mass_pos as Hp.
  set (x0 := / (2 * half_mass * eps) + 1).
  assert (Hinv : 0 < / (2 * half_mass * eps)).
  { apply Rinv_0_lt_compat. apply Rmult_lt_0_compat; lra. }
  exists x0. intros x Hx.
  apply Rlt_le_trans with (cdf x0); [ | apply cdf_incr, Hx].
  assert (Hx0 : 0 < x0) by (unfold x0; lra).
  pose proof (cdf_upper_tail x0 Hx0) as Ht.
  assert (Hb : pdf x0 / x0 < eps); [ | lra].
  unfold pdf. pose proof (kernel_le_1 x0) as Hk. pose proof (kernel_pos x0) as Hk0.
  apply Rle_lt_trans with (1 / (2 * half_mass) / x0).
  - unfold Rdiv. apply Rmult_le_compat_r; [left; apply Rinv_0_lt_compat, Hx0 | ].
    apply Rmult_le_compat_r; [left; apply Rinv_0_lt_compat; lra | exact Hk].
  - apply Rmult_lt_reg_r with x0; [exact Hx0 | ].
    replace (1 / (2 * half_mass) / x0 * x0) with (/ (2 * half_mass)) by (field; lra).
    replace (eps * x0) with (/ (2 * half_mass) + eps) by (unfold x0; field; lra).
    lra.
Qed.

Lemma cdf_limit_zero (eps : R) :
  0 < eps -> exists x0, forall x, x <= x0 -> cdf x < eps.
Proof.
  intro He. destruct (cdf_limit_one eps He) as [x0 H0].
  exists (- x0). intros x Hx.
  assert (Hm : x0 <= - x) by lra.
  specialize (H0 (- x) Hm). rewrite cdf_opp in H0. lra.
Qed.

End Gaussian.

(* ================================================================= *)
(** * Part 2. The numeric layer *)

(** ** Python: exceptions and true division *)

(** Python's exception classes form an open set, named by strings. *)
Inductive exn : Type := PyExn (name : string).

Definition ZeroDivisionError : exn := PyExn "ZeroDivisionError".

Inductive result (A : Type) : Type :=
| Ok (a : A)
| Raise (e : exn).
Arguments Ok {A} a.
Arguments Raise {A} e.

(** [x / y] on Python floats (an [int] operand is converted first): raises
    [ZeroDivisionError] when the divisor is zero. *)
Definition py_truediv (x y : R) : result R :=
  if Req_dec_T y 0 then Raise ZeroDivisionError else Ok (x / y).

(** [range(n)]: the integers [0, 1, ..., n - 1], empty when [n <= 0]. *)
Definition py_range (n : Z) : list Z := map Z.of_nat (seq 0 (Z.to_nat n)).

(** ** numpy: float64 with infinities and NaN *)

Inductive float64 : Type :=
| Fin (x : R)
| PInf
| NInf
| NaN.

(** Case split on the sign of a real. *)
Definition by_sign {A : Type} (x : R) (pos zero neg : A) : A :=
  if Rlt_dec 0 x then pos else if Rlt_dec x 0 then neg else zero.

Definition np_neg (a : float64) : float64 :=
  match a with
  | Fin x => Fin (- x)
  | PInf => NInf
  | NInf => PInf
  | NaN => NaN
  end.

Definition np_add (a b : float64) : float64 :=
  match a, b with
  | NaN, _ | _, NaN => NaN
  | Fin x, Fin y => Fin (x + y)
  | PInf, NInf | NInf, PInf => NaN
  | PInf, _ | _, PInf => PInf
  | NInf, _ | _, NInf => NInf
  end.

Definition np_sub (a b : float64) : float64 := np_add a (np_neg b).

Definition np_mul (a b : float64) : float64 :=
  match a, b with
  | NaN, _ | _, NaN => NaN
  | Fin x, Fin y => Fin (x * y)
  | Fin x, PInf | PInf, Fin x => by_sign x PInf NaN NInf
  | Fin x, NInf | NInf, Fin x => by_sign x NInf NaN PInf
  | PInf, PInf | NInf, NInf => PInf
  | PInf, NInf | NInf, PInf => NInf
  end.

(** Division by (positive) zero gives an infinity of the sign of the
    numerator, [0 / 0] gives NaN: numpy warns and does not raise. *)
Definition np_div (a b : float64) : float64 :=
  match a, b with
  | NaN, _ | _, NaN => NaN
  | Fin x, Fin y =>
      if Req_dec_T y 0 then by_sign x PInf NaN NInf else Fin (x / y)
  | Fin _, PInf | Fin _, NInf => Fin 0
  | PInf, Fin y => if Rlt_dec y 0 then NInf else PInf
  | NInf, Fin y => if Rlt_dec y 0 then PInf else NInf
  | PInf, PInf | PInf, NInf | NInf, PInf | NInf, NInf => NaN
  end.

Declare Scope np_scope.
Delimit Scope np_scope with np.
Bind Scope np_scope with float64.
Infix "+" := np_add : np_scope.
Infix "-" := np_sub : np_scope.
Infix "*" := np_mul : np_scope.
Infix "/" := np_div : np_scope.

(** [np.exp], [np.log], [np.sqrt]. *)
Definition np_exp (a : float64) : float64 :=
  match a with
  | Fin x => Fin (exp x)
  | PInf => PInf
  | NInf => Fin 0
  | NaN => NaN
  end.

Definition np_log (a : float64) : float64 :=
  match a with
  | Fin x => by_sign x (Fin (ln x)) NInf NaN
  | PInf => PInf
  | NInf | NaN => NaN
  end.

Definition np_sqrt (a : float64) : float64 :=
  match a with
  | Fin x => if Rlt_dec x 0 then NaN else Fin (sqrt x)
  | PInf => PInf
  | NInf | NaN => NaN
  end.

(** [a ** k] for a float64 [a] and a Python integer [k]. *)
Definition np_pow (a : float64) (k : Z) : float64 :=
  match a with
  | Fin x =>
      if Req_dec_T x 0 then
        (if (k <? 0)%Z then PInf else Fin (powerRZ x k))
      else Fin (powerRZ x k)
  | PInf =>
      if (k =? 0)%Z then Fin 1 else if (k <? 0)%Z then Fin 0 else PInf
  | NInf =>
      if (k =? 0)%Z then Fin 1 else if (k <? 0)%Z then Fin 0
      else if Z.odd k then NInf else PInf
  | NaN => if (k =? 0)%Z then Fin 1 else NaN
  end.

(** [np.maximum]: NaN if either argument is NaN. *)
Definition np_maximum (a b : float64) : float64 :=
  match a, b with
  | NaN, _ | _, NaN => NaN
  | Fin x, Fin y => Fin (Rmax x y)
  | PInf, _ | _, PInf => PInf
  | NInf, c | c, NInf => c
  end.

(** ** scipy.stats *)

(** [norm.cdf]. *)
Definition norm_cdf (a : float64) : float64 :=
  match a with
  | Fin x => Fin (Gaussian.cdf x)
  | PInf => Fin 1
  | NInf => Fin 0
  | NaN => NaN
  end.

(** The probability of [k] successes among [n] trials of probability [p]. *)
Definition binomial_mass (k n : nat) (p : R) : R :=
  C n k * p ^ k * (1 - p) ^ (n - k).

(** [binom.pmf(k, n, p)]: NaN when the parameters are not those of a
    distribution ([n < 0], or [p] not in [[0, 1]]), zero outside the support
    [0 .. n]. *)
Definition binom_pmf (k n : Z) (p : float64) : float64 :=
  match p with
  | Fin x =>
      if (n <? 0)%Z then NaN
      else if Rlt_dec x 0 then NaN
      else if Rlt_dec 1 x then NaN
      else if ((0 <=? k) && (k <=? n))%Z
           then Fin (binomial_mass (Z.to_nat k) (Z.to_nat n) x)
           else Fin 0
  | PInf | NInf | NaN => NaN
  end.

(* ================================================================= *)
(** * Part 3. The notebook *)

(** [blackScholesCall(spot, strike, vol, rate, expiry, div)].  The arguments
    are Python floats; [spot / strike] is Python's division, everything that
    goes through [np.log], [np.sqrt], [np.exp] or [norm.cdf] is numpy's. *)
Definition blackScholesCall (spot strike vol rate expiry div : R)
  : result float64 :=
  match py_truediv spot strike with
  | Raise e => Raise e
  | Ok ratio =>
      let d1 := ((np_log (Fin ratio)
                  + Fin ((rate - div + 0.5 * vol * vol) * expiry))
                 / (Fin vol * np_sqrt (Fin expiry)))%np in
      let d2 := (d1 - (Fin vol * np_sqrt (Fin expiry)))%np in
      let callPrc :=
        ((Fin spot * np_exp (Fin (- div * expiry)) * norm_cdf d1)
         - (Fin strike * np_exp (Fin (- rate * expiry)) * norm_cdf d2))%np in
      Ok callPrc
  end.

(** [callPayoff(spot, strike)] and [putPayoff(spot, strike)]: in the lattice
    the first argument is a float64, the strike a Python float. *)
Definition callPayoff (spot : float64) (strike : R) : float64 :=
  np_maximum (spot - Fin strike)%np (Fin 0).

Definition putPayoff (spot : float64) (strike : R) : float64 :=
  np_maximum (Fin strike - spot)%np (Fin 0).

(** The same two functions on machine doubles.  Subtraction is IEEE-754
    binary64 subtraction, rounding included; [np.maximum(a, b)] is [a] when
    [a] is NaN, else [a] when [a > b], else [b]. *)
Module Binary64.
Import Floats.
Local Open Scope float_scope.

Definition maximum (a b : float) : float :=
  if is_nan a then a else if b <? a then a else b.

Definition callPayoff (spot strike : float) : float :=
  maximum (spot - strike) 0.

Definition putPayoff (spot strike : float) : float :=
  maximum (strike - spot) 0.


End Binary64.

(** The local variables [u], [d] and [pstar] of [binomialPricer], as
    functions of the step length [h]. *)
Definition lattice_u (r v q h : R) : float64 :=
  np_exp (Fin ((r - q) * h) + Fin v * np_sqrt (Fin h))%np.

Definition lattice_d (r v q h : R) : float64 :=
  np_exp (Fin ((r - q) * h) - Fin v * np_sqrt (Fin h))%np.

Definition lattice_pstar (r v q h : R) : float64 :=
  ((np_exp (Fin ((r - q) * h)) - lattice_d r v q h)
   / (lattice_u r v q h - lattice_d r v q h))%np.

(** One line of the diagnostic output: [(spotT, po, prob)].  The notebook
    prints the three numbers with four decimals; the model keeps the
    numbers. *)
Definition node_line : Type := (float64 * float64 * float64)%type.

(** The three quantities the loop body computes at index [i]. *)
Definition lattice_node (S K : R) (u d pstar : float64) (n : Z)
    (payoff : float64 -> R -> float64) (i : Z) : node_line :=
  let prob := binom_pmf i n pstar in
  let spotT := (Fin S * np_pow u i * np_pow d (n - i))%np in
  let po := payoff spotT K in
  (spotT, po, prob).

(** What one iteration adds to [price]: the term [po * prob]. *)
Definition node_value (S K : R) (u d pstar : float64) (n : Z)
    (payoff : float64 -> R -> float64) (i : Z) : float64 :=
  let '(_, po, prob) := lattice_node S K u d pstar n payoff i in
  (po * prob)%np.

(** The loop body, on the pair of the running [price] and the lines printed
    so far. *)
Definition lattice_step (S K : R) (u d pstar : float64) (n : Z)
    (payoff : float64 -> R -> float64) (verbose : bool)
    (st : float64 * list node_line) (i : Z) : float64 * list node_line :=
  let '(spotT, po, prob) := lattice_node S K u d pstar n payoff i in
  let price := (fst st + po * prob)%np in
  (price, if verbose then snd st ++ [(spotT, po, prob)] else snd st).

(** [binomialPricer(S, K, r, v, q, T, n, payoff, verbose)]: the result of
    the call together with what it printed. *)
Definition binomialPricer (S K r v q T : R) (n : Z)
    (payoff : float64 -> R -> float64) (verbose : bool)
  : result float64 * list node_line :=
  let nodes := (n + 1)%Z in
  match py_truediv T (IZR n) with
  | Raise e => (Raise e, [])
  | Ok h =>
      let u := lattice_u r v q h in
      let d := lattice_d r v q h in
      let pstar := lattice_pstar r v q h in
      let st := fold_left (lattice_step S K u d pstar n payoff verbose)
                          (py_range nodes) (Fin 0, []) in
      (Ok (fst st * np_exp (Fin (- r * T)))%np, snd st)
  end.

(** What a code cell writes to its output area: diagnostic lines of
    [binomialPricer] and values passed to [print]. *)
Inductive printed : Type :=
| Line (l : node_line)
| Value (x : float64).

(** The last code cell, as a function of the globals it reads:

      for i in range(len(N)):
          nsteps = N[i]
          callPrc = binomialPricer(spot, strike, rate, vol, div, expiry,
                                   nsteps, callPayoff, verbose=False)
          print(callPrc)

    [convergence_loop] runs the body over the remaining indices; an
    exception raised by the call ends the cell, with what was written until
    then.  The indices come from [range(len(N))], so [N[i]] never fails. *)
Fixpoint convergence_loop (spot strike rate vol div expiry : R) (N : list Z)
    (indices : list Z) (out : list printed) : result unit * list printed :=
  match indices with
  | [] => (Ok tt, out)
  | i :: rest =>
      let nsteps := nth (Z.to_nat i) N 0%Z in
      match binomialPricer spot strike rate vol div expiry nsteps callPayoff false with
      | (Raise e, lines) => (Raise e, out ++ map Line lines)
      | (Ok callPrc, lines) =>
          convergence_loop spot strike rate vol div expiry N rest
            (out ++ map Line lines ++ [Value callPrc])
      end
  end.

Definition convergence_cell (spot strike rate vol div expiry : R) (N : list Z)
  : result unit * list printed :=
  convergence_loop spot strike rate vol div expiry N
    (py_range (Z.of_nat (List.length N))) [].

(** The step counts of the notebook. *)
Definition notebook_N : list Z := [10; 25; 50; 75; 100; 125; 150; 175; 200; 500]%Z.

(* ================================================================= *)
(** * Part 4. Reference formulas of the specification *)

(** The error kind of the specification.  The notebook defines no such
    class and raises nothing by that name. *)
Definition DomainError : exn := PyExn "DomainError".

(** Closed form, section 4.1: [d1], [d2] and the call price. *)
Definition bsm_d1 (S K sigma r T delta : R) : R :=
  (ln (S / K) + (r - delta + 0.5 * sigma ^ 2) * T) / (sigma * sqrt T).

Definition bsm_d2 (S K sigma r T delta : R) : R :=
  bsm_d1 S K sigma r T delta - sigma * sqrt T.

Definition bsm_call (S K sigma r T delta : R) : R :=
  S * exp (- delta * T) * Gaussian.cdf (bsm_d1 S K sigma r T delta)
  - K * exp (- r * T) * Gaussian.cdf (bsm_d2 S K sigma r T delta).

Definition bsm_put (S K sigma r T delta : R) : R :=
  K * exp (- r * T) * Gaussian.cdf (- bsm_d2 S K sigma r T delta)
  - S * exp (- delta * T) * Gaussian.cdf (- bsm_d1 S K sigma r T delta).

(** Modelled from the spec: the closed-form put pricer.  The notebook states
    the put formula in its introduction and defines only [blackScholesCall];
    this is section 4.1's put price, computed the way the call is. *)
Definition blackScholesPut (spot strike vol rate expiry div : R)
  : result float64 :=
  match py_truediv spot strike with
  | Raise e => Raise e
  | Ok ratio =>
      let d1 := ((np_log (Fin ratio)
                  + Fin ((rate - div + 0.5 * vol * vol) * expiry))
                 / (Fin vol * np_sqrt (Fin expiry)))%np in
      let d2 := (d1 - (Fin vol * np_sqrt (Fin expiry)))%np in
      let putPrc :=
        ((Fin strike * np_exp (Fin (- rate * expiry)) * norm_cdf (np_neg d2))
         - (Fin spot * np_exp (Fin (- div * expiry)) * norm_cdf (np_neg d1)))%np in
      Ok putPrc
  end.

(** Lattice, section 4.2: step length, factors, risk-neutral probability
    and the discounted expectation over the [n + 1] terminal nodes. *)
Definition crr_u (r sigma delta h : R) : R := exp ((r - delta) * h + sigma * sqrt h).
Definition crr_d (r sigma delta h : R) : R := exp ((r - delta) * h - sigma * sqrt h).
Definition crr_pstar (r sigma delta h : R) : R :=
  (exp ((r - delta) * h) - crr_d r sigma delta h)
  / (crr_u r sigma delta h - crr_d r sigma delta h).

Definition crr_terminal (S r sigma delta h : R) (n i : nat) : R :=
  S * crr_u r sigma delta h ^ i * crr_d r sigma delta h ^ (n - i).

Definition crr_price (S K r sigma delta T : R) (n : nat) (g : R -> R -> R) : R :=
  let h := T / INR n in
  exp (- r * T)
  * sum_f_R0 (fun i => binomial_mass i n (crr_pstar r sigma delta h)
                       * g (crr_terminal S r sigma delta h n i) K) n.

(** The payoffs of section 4.3 on the reals. *)
Definition call_payoff (ST K : R) : R := Rmax (ST - K) 0.
Definition put_payoff (ST K : R) : R := Rmax (K - ST) 0.

(* ================================================================= *)
(** * Part 5. Properties *)

(** ** Evaluation lemmas for the numeric layer *)

(** Arithmetic on finite values reduces to arithmetic on the reals. *)
Ltac np_fin :=
  cbn [np_add np_sub np_neg np_mul np_exp norm_cdf np_maximum].

Lemma by_sign_pos {A : Type} (x : R) (a b c : A) : 0 < x -> by_sign x a b c = a.
Proof. intro H. unfold by_sign. destruct (Rlt_dec 0 x); [reflexivity | lra]. Qed.

Lemma by_sign_neg {A : Type} (x : R) (a b c : A) : x < 0 -> by_sign x a b c = c.
Proof.
  intro H. unfold by_sign.
  destruct (Rlt_dec 0 x); [lra | ]. destruct (Rlt_dec x 0); [reflexivity | lra].
Qed.

Lemma by_sign_zero {A : Type} (a b c : A) : by_sign 0 a b c = b.
Proof.
  unfold by_sign.
  destruct (Rlt_dec 0 0); [lra | ]. destruct (Rlt_dec 0 0); [lra | reflexivity].
Qed.

Lemma py_truediv_ok (x y : R) : y <> 0 -> py_truediv x y = Ok (x / y).
Proof. intro H. unfold py_truediv. destruct (Req_dec_T y 0); [contradiction | reflexivity]. Qed.

Lemma py_truediv_zero (x : R) : py_truediv x 0 = Raise ZeroDivisionError.
Proof. unfold py_truediv. destruct (Req_dec_T 0 0); [reflexivity | contradiction]. Qed.

Lemma np_div_Fin (x y : R) : y <> 0 -> (Fin x / Fin y)%np = Fin (x / y).
Proof. intro H. simpl. destruct (Req_dec_T y 0); [contradiction | reflexivity]. Qed.

Lemma np_div_zero (x : R) : (Fin x / Fin 0)%np = by_sign x PInf NaN NInf.
Proof. simpl. destruct (Req_dec_T 0 0); [reflexivity | contradiction]. Qed.

Lemma np_log_Fin (x : R) : 0 < x -> np_log (Fin x) = Fin (ln x).
Proof. intro H. simpl. apply by_sign_pos, H. Qed.

Lemma np_sqrt_Fin (x : R) : 0 <= x -> np_sqrt (Fin x) = Fin (sqrt x).
Proof. intro H. simpl. destruct (Rlt_dec x 0); [lra | reflexivity]. Qed.

Lemma np_sqrt_neg (x : R) : x < 0 -> np_sqrt (Fin x) = NaN.
Proof. intro H. simpl. destruct (Rlt_dec x 0); [reflexivity | lra]. Qed.

Lemma np_pow_Fin_nat (x : R) (k : nat) : np_pow (Fin x) (Z.of_nat k) = Fin (x ^ k).
Proof.
  simpl. rewrite <- pow_powerRZ.
  destruct (Req_dec_T x 0); [ | reflexivity].
  destruct (Z.ltb_spec (Z.of_nat k) 0); [lia | reflexivity].
Qed.

Lemma np_mul_NaN_r (a : float64) : (a * NaN)%np = NaN.
Proof. destruct a; reflexivity. Qed.

Lemma np_add_NaN_r (a : float64) : (a + NaN)%np = NaN.
Proof. destruct a; reflexivity. Qed.

Lemma binom_pmf_Fin (k n : nat) (p : R) :
  (k <= n)%nat -> 0 <= p <= 1 ->
  binom_pmf (Z.of_nat k) (Z.of_nat n) (Fin p) = Fin (binomial_mass k n p).
Proof.
  intros Hk Hp. unfold binom_pmf.
  destruct (Z.ltb_spec (Z.of_nat n) 0); [lia | ].
  destruct (Rlt_dec p 0); [lra | ]. destruct (Rlt_dec 1 p); [lra | ].
  destruct (Z.leb_spec 0 (Z.of_nat k)); [ | lia].
  destruct (Z.leb_spec (Z.of_nat k) (Z.of_nat n)); [ | lia].
  simpl. rewrite !Nat2Z.id. reflexivity.
Qed.

Lemma binom_pmf_invalid (k n : Z) (p : float64) :
  (forall x, p = Fin x -> x < 0 \/ 1 < x) -> binom_pmf k n p = NaN.
Proof.
  intro H. destruct p as [x | | | ]; try reflexivity.
  unfold binom_pmf. destruct (n <? 0)%Z; [reflexivity | ].
  destruct (H x eq_refl).
  - destruct (Rlt_dec x 0); [reflexivity | lra].
  - destruct (Rlt_dec x 0); [reflexivity | ].
    destruct (Rlt_dec 1 x); [reflexivity | lra].
Qed.

Lemma binomial_mass_nonneg (k n : nat) (p : R) :
  0 <= p <= 1 -> 0 <= binomial_mass k n p.
Proof.
  intros Hp. unfold binomial_mass, C.
  apply Rmult_le_pos; [apply Rmult_le_pos | ].
  - apply Rmult_le_pos; [apply pos_INR | ].
    left. apply Rinv_0_lt_compat.
    apply Rmult_lt_0_compat; apply lt_0_INR, lt_O_fact.
  - apply pow_le; lra.
  - apply pow_le; lra.
Qed.

(** The masses of a binomial distribution add up to one. *)
Lemma binomial_mass_total (n : nat) (p : R) :
  sum_f_R0 (fun i => binomial_mass i n p) n = 1.
Proof.
  unfold binomial_mass. rewrite <- binomial.
  replace (p + (1 - p)) with 1 by ring. apply pow1.
Qed.

(** ** The model on small inputs *)

Example py_range_3 : py_range 3 = [0%Z; 1%Z; 2%Z].
Proof. reflexivity. Qed.

Example py_range_negative : py_range (-4) = [].
Proof. reflexivity. Qed.

Example binomial_mass_fair_coin : binomial_mass 1 2 (/ 2) = / 2.
Proof. unfold binomial_mass, C. simpl. field. Qed.

Example callPayoff_in_the_money : callPayoff (Fin 41) 40 = Fin 1.
Proof.
  unfold callPayoff. np_fin.
  f_equal. rewrite Rmax_left; lra.
Qed.

Example putPayoff_out_of_the_money : putPayoff (Fin 41) 40 = Fin 0.
Proof.
  unfold putPayoff. np_fin.
  f_equal. rewrite Rmax_right; lra.
Qed.

Example callPayoff_of_nan : callPayoff NaN 40 = NaN.
Proof. reflexivity. Qed.

Example one_over_zero : (Fin 1 / Fin 0)%np = PInf.
Proof. rewrite np_div_zero. apply by_sign_pos. lra. Qed.

Example minus_one_over_zero : (Fin (-1) / Fin 0)%np = NInf.
Proof. rewrite np_div_zero. apply by_sign_neg. lra. Qed.

Example zero_over_zero : (Fin 0 / Fin 0)%np = NaN.
Proof. rewrite np_div_zero. apply by_sign_zero. Qed.

Example sqrt_of_negative : np_sqrt (Fin (-1)) = NaN.
Proof. apply np_sqrt_neg. lra. Qed.

Example strike_zero_raises :
  blackScholesCall 41 0 0.3 0.08 0.25 0 = Raise ZeroDivisionError.
Proof. unfold blackScholesCall. rewrite py_truediv_zero. reflexivity. Qed.

(** Position of an exponential relative to 1. *)
Lemma exp_gt_1_iff (x : R) : 1 < exp x <-> 0 < x.
Proof.
  rewrite <- exp_0. split; intro H.
  - apply exp_lt_inv, H.
  - apply exp_increasing, H.
Qed.

Lemma exp_lt_1_iff (x : R) : exp x < 1 <-> x < 0.
Proof.
  rewrite <- exp_0. split; intro H.
  - apply exp_lt_inv, H.
  - apply exp_increasing, H.
Qed.

(** ** The closed-form pricer on valid parameters *)

Section ClosedForm.

Variables S K sigma r T delta : R.
Hypothesis S_pos : 0 < S.
Hypothesis K_pos : 0 < K.
Hypothesis sigma_pos : 0 < sigma.
Hypothesis T_pos : 0 < T.

Lemma vol_sqrt_pos : 0 < sigma * sqrt T.
Proof. apply Rmult_lt_0_compat; [exact sigma_pos | apply sqrt_lt_R0, T_pos]. Qed.

Lemma d1_agrees :
  (ln (S / K) + (r - delta + 0.5 * sigma * sigma) * T) / (sigma * sqrt T)
  = bsm_d1 S K sigma r T delta.
Proof. unfold bsm_d1. f_equal. ring. Qed.

Lemma blackScholesCall_valid :
  blackScholesCall S K sigma r T delta = Ok (Fin (bsm_call S K sigma r T delta)).
Proof.
  pose proof vol_sqrt_pos as Hs.
  unfold blackScholesCall.
  rewrite py_truediv_ok by lra.
  rewrite np_log_Fin by (apply Rdiv_lt_0_compat; assumption).
  rewrite np_sqrt_Fin by lra.
  cbn [np_mul np_add]. rewrite np_div_Fin by lra.
  np_fin.
  rewrite d1_agrees. reflexivity.
Qed.

Lemma blackScholesPut_valid :
  blackScholesPut S K sigma r T delta = Ok (Fin (bsm_put S K sigma r T delta)).
Proof.
  pose proof vol_sqrt_pos as Hs.
  unfold blackScholesPut.
  rewrite py_truediv_ok by lra.
  rewrite np_log_Fin by (apply Rdiv_lt_0_compat; assumption).
  rewrite np_sqrt_Fin by lra.
  cbn [np_mul np_add]. rewrite np_div_Fin by lra.
  np_fin.
  rewrite d1_agrees. reflexivity.
Qed.

End ClosedForm.

(** ** Sign of the closed-form call price *)

(** With [d1 = N / s] and [d2 = d1 - s], half the difference of the squares
    is [N - s^2 / 2]. *)
Lemma half_square_gap (N s : R) :
  s <> 0 ->
  (N / s) * (N / s) / 2 - (N / s - s) * (N / s - s) / 2 = N - s * s / 2.
Proof. intro Hs. field. exact Hs. Qed.

Section ClosedFormSign.

Variables S K sigma r T delta : R.
Hypothesis S_pos : 0 < S.
Hypothesis K_pos : 0 < K.
Hypothesis sigma_pos : 0 < sigma.
Hypothesis T_pos : 0 < T.

Let d1 := bsm_d1 S K sigma r T delta.
Let d2 := bsm_d2 S K sigma r T delta.

Lemma d2_le_d1 : d2 <= d1.
Proof.
  pose proof (vol_sqrt_pos sigma T sigma_pos T_pos).
  unfold d1, d2, bsm_d2. lra.
Qed.

Lemma d_square_gap : d1 * d1 / 2 = d2 * d2 / 2 + (ln (S / K) + (r - delta) * T).
Proof.
  pose proof (vol_sqrt_pos sigma T sigma_pos T_pos) as Hs.
  assert (HT : sqrt T * sqrt T = T) by (apply sqrt_sqrt; lra).
  unfold d1, d2, bsm_d2, bsm_d1.
  set (N := ln (S / K) + (r - delta + 0.5 * sigma ^ 2) * T).
  pose proof (half_square_gap N (sigma * sqrt T)) as Hg.
  assert (Hss : sigma * sqrt T * (sigma * sqrt T) = sigma ^ 2 * T)
    by (simpl; rewrite <- HT at 3; ring).
  rewrite Hss in Hg. unfold N in *. lra.
Qed.

(** The discounted strike is the discounted spot tilted by [exp] of that
    gap. *)
Lemma forward_ratio :
  K * exp (- r * T) * exp (ln (S / K) + (r - delta) * T) = S * exp (- delta * T).
Proof.
  rewrite exp_plus, exp_ln by (apply Rdiv_lt_0_compat; assumption).
  replace (K * exp (- r * T) * (S / K * exp ((r - delta) * T)))
    with (S * (exp (- r * T) * exp ((r - delta) * T))) by (field; lra).
  rewrite <- exp_plus. do 2 f_equal. ring.
Qed.

Lemma bsm_call_nonneg : 0 <= bsm_call S K sigma r T delta.
Proof.
  pose proof (Gaussian.cdf_tilt_incr d2 d1 d2_le_d1) as Ht.
  rewrite d_square_gap, exp_plus in Ht.
  pose proof (exp_pos (d2 * d2 / 2)) as He.
  set (L := ln (S / K) + (r - delta) * T) in *.
  assert (Hc : Gaussian.cdf d2 <= exp L * Gaussian.cdf d1).
  { apply Rmult_le_reg_l with (exp (d2 * d2 / 2)); [exact He | ].
    rewrite <- Rmult_assoc. exact Ht. }
  pose proof (exp_pos (- r * T)) as Hr.
  assert (Hb : 0 < K * exp (- r * T)) by (apply Rmult_lt_0_compat; assumption).
  apply Rmult_le_compat_l with (r := K * exp (- r * T)) in Hc; [ | lra].
  rewrite <- Rmult_assoc in Hc. unfold L in Hc. rewrite forward_ratio in Hc.
  unfold bsm_call. fold d1 d2. lra.
Qed.

(** The same for the modelled put, from the symmetry of the distribution
    function. *)
Lemma bsm_put_nonneg : 0 <= bsm_put S K sigma r T delta.
Proof.
  assert (Hle : - d1 <= - d2) by (pose proof d2_le_d1; lra).
  pose proof (Gaussian.cdf_tilt_incr (- d1) (- d2) Hle) as Ht.
  replace (- d1 * - d1 / 2) with (d1 * d1 / 2) in Ht by field.
  replace (- d2 * - d2 / 2) with (d2 * d2 / 2) in Ht by field.
  rewrite d_square_gap, exp_plus in Ht.
  pose proof (exp_pos (d2 * d2 / 2)) as He.
  set (L := ln (S / K) + (r - delta) * T) in *.
  assert (Hc : exp L * Gaussian.cdf (- d1) <= Gaussian.cdf (- d2)).
  { apply Rmult_le_reg_l with (exp (d2 * d2 / 2)); [exact He | ].
    rewrite <- Rmult_assoc. exact Ht. }
  pose proof (exp_pos (- r * T)) as Hr.
  assert (Hb : 0 < K * exp (- r * T)) by (apply Rmult_lt_0_compat; assumption).
  apply Rmult_le_compat_l with (r := K * exp (- r * T)) in Hc; [ | lra].
  rewrite <- Rmult_assoc in Hc. unfold L in Hc. rewrite forward_ratio in Hc.
  unfold bsm_put. fold d1 d2. lra.
Qed.

End ClosedFormSign.

(** ** The closed-form pricer with no volatility or no time left *)


(** ** The lattice parameters *)

Section LatticeParameters.

Variables r v q h : R.

Lemma lattice_u_Fin : 0 <= h -> lattice_u r v q h = Fin (crr_u r v q h).
Proof. intro Hh. unfold lattice_u. rewrite np_sqrt_Fin by exact Hh. reflexivity. Qed.

Lemma lattice_d_Fin : 0 <= h -> lattice_d r v q h = Fin (crr_d r v q h).
Proof.
  intro Hh. unfold lattice_d. rewrite np_sqrt_Fin by exact Hh.
  np_fin. reflexivity.
Qed.

Lemma lattice_u_neg : h < 0 -> lattice_u r v q h = NaN.
Proof. intro Hh. unfold lattice_u. rewrite np_sqrt_neg by exact Hh. reflexivity. Qed.

Lemma lattice_d_neg : h < 0 -> lattice_d r v q h = NaN.
Proof. intro Hh. unfold lattice_d. rewrite np_sqrt_neg by exact Hh. reflexivity. Qed.

Lemma lattice_pstar_Fin :
  0 <= h -> crr_u r v q h <> crr_d r v q h ->
  lattice_pstar r v q h = Fin (crr_pstar r v q h).
Proof.
  intros Hh Hne. unfold lattice_pstar.
  rewrite lattice_u_Fin, lattice_d_Fin by exact Hh.
  np_fin.
  rewrite np_div_Fin by lra. reflexivity.
Qed.

Lemma crr_d_pos : 0 < crr_d r v q h.
Proof. apply exp_pos. Qed.

Lemma crr_d_lt_u : 0 < v -> 0 < h -> crr_d r v q h < crr_u r v q h.
Proof.
  intros Hv Hh. unfold crr_d, crr_u. apply exp_increasing.
  assert (0 < v * sqrt h)
    by (apply Rmult_lt_0_compat; [exact Hv | apply sqrt_lt_R0, Hh]).
  lra.
Qed.

Lemma crr_forward_between :
  0 < v -> 0 < h ->
  crr_d r v q h < exp ((r - q) * h) < crr_u r v q h.
Proof.
  intros Hv Hh. unfold crr_d, crr_u.
  assert (0 < v * sqrt h)
    by (apply Rmult_lt_0_compat; [exact Hv | apply sqrt_lt_R0, Hh]).
  split; apply exp_increasing; lra.
Qed.

Lemma crr_pstar_range : 0 < v -> 0 < h -> 0 < crr_pstar r v q h < 1.
Proof.
  intros Hv Hh. destruct (crr_forward_between Hv Hh) as [Hd Hu].
  unfold crr_pstar. split.
  - apply Rdiv_lt_0_compat; lra.
  - apply Rmult_lt_reg_r with (crr_u r v q h - crr_d r v q h); [lra | ].
    unfold Rdiv. rewrite Rmult_assoc, Rinv_l by lra. lra.
Qed.

Lemma crr_martingale :
  crr_u r v q h <> crr_d r v q h ->
  crr_pstar r v q h * crr_u r v q h + (1 - crr_pstar r v q h) * crr_d r v q h
  = exp ((r - q) * h).
Proof. intro Hne. unfold crr_pstar. field. lra. Qed.

(** When [u] and [d] coincide, or are not numbers, [pstar] is no
    probability. *)
Lemma lattice_pstar_degenerate :
  lattice_u r v q h = lattice_d r v q h ->
  forall x, lattice_pstar r v q h = Fin x -> x < 0 \/ 1 < x.
Proof.
  intros Heq x. unfold lattice_pstar. rewrite Heq.
  destruct (Rlt_dec h 0) as [Hh | Hh].
  - rewrite lattice_d_neg by exact Hh. discriminate.
  - rewrite lattice_d_Fin by lra.
    np_fin.
    replace (crr_d r v q h + - crr_d r v q h) with 0 by ring.
    rewrite np_div_zero. unfold by_sign.
    destruct (Rlt_dec 0 _); [discriminate | ].
    destruct (Rlt_dec _ 0); discriminate.
Qed.

(** The two degenerate lattices of the specification: no volatility, or
    no time. *)
Lemma lattice_flat_zero_vol : v = 0 -> lattice_u r v q h = lattice_d r v q h.
Proof.
  intro Hv. destruct (Rlt_dec h 0) as [Hh | Hh].
  - rewrite lattice_u_neg, lattice_d_neg by exact Hh. reflexivity.
  - rewrite lattice_u_Fin, lattice_d_Fin by lra.
    unfold crr_u, crr_d. rewrite Hv. do 2 f_equal. ring.
Qed.

Lemma lattice_flat_zero_step : h = 0 -> lattice_u r v q h = lattice_d r v q h.
Proof.
  intro Hh. rewrite lattice_u_Fin, lattice_d_Fin by lra.
  unfold crr_u, crr_d. rewrite Hh, sqrt_0. do 2 f_equal. ring.
Qed.

End LatticeParameters.

(** ** The loop of [binomialPricer] *)

Section LatticeLoop.

Variables S K : R.
Variables u d pstar : float64.
Variable n : Z.
Variable payoff : float64 -> R -> float64.

(** The loop is a sum of node values; with [verbose] it also appends one
    line per index and changes nothing else. *)
Lemma lattice_loop (verbose : bool) (l : list Z) (st : float64 * list node_line) :
  fold_left (lattice_step S K u d pstar n payoff verbose) l st
  = (fold_left (fun p i => (p + node_value S K u d pstar n payoff i)%np) l (fst st),
     if verbose then snd st ++ map (lattice_node S K u d pstar n payoff) l
     else snd st).
Proof.
  revert st. induction l as [ | i l IH]; intros [p out].
  - simpl. destruct verbose; [rewrite app_nil_r | ]; reflexivity.
  - cbn [fold_left map]. rewrite IH. clear IH.
    unfold lattice_step, node_value.
    destruct (lattice_node S K u d pstar n payoff i) as [[spotT po] prob].
    destruct verbose; cbn [fst snd]; [ | reflexivity].
    rewrite <- app_assoc. reflexivity.
Qed.

(** A NaN probability mass poisons the sum. *)
Lemma lattice_loop_NaN (l : list Z) (p : float64) :
  (forall i, binom_pmf i n pstar = NaN) ->
  l <> [] ->
  fold_left (fun p i => (p + node_value S K u d pstar n payoff i)%np) l p = NaN.
Proof.
  intros Hnan.
  assert (Hv : forall i, node_value S K u d pstar n payoff i = NaN).
  { intro i. unfold node_value, lattice_node. rewrite Hnan. apply np_mul_NaN_r. }
  assert (Hstay : forall l', fold_left (fun p i => (p + node_value S K u d pstar n payoff i)%np) l' NaN = NaN).
  { induction l' as [ | i l' IH]; [reflexivity | ].
    cbn [fold_left]. rewrite Hv. exact IH. }
  destruct l as [ | i l]; [congruence | ]. intros _.
  cbn [fold_left]. rewrite Hv, np_add_NaN_r. apply Hstay.
Qed.

End LatticeLoop.

Lemma py_range_succ (m : nat) :
  py_range (Z.of_nat m + 1) = map Z.of_nat (seq 0 (Datatypes.S m)).
Proof.
  unfold py_range. replace (Z.of_nat m + 1)%Z with (Z.of_nat (Datatypes.S m)) by lia.
  rewrite Nat2Z.id. reflexivity.
Qed.

Lemma py_range_nonpos (k : Z) : (k <= 0)%Z -> py_range k = [].
Proof.
  intro H. unfold py_range.
  replace (Z.to_nat k) with 0%nat by lia. reflexivity.
Qed.

Lemma py_range_length (k : Z) : List.length (py_range k) = Z.to_nat k.
Proof. unfold py_range. rewrite length_map, length_seq. reflexivity. Qed.

Section LatticeSum.

Variables S K U D P : R.
Variable n : nat.
Variable payoff : float64 -> R -> float64.
Variable g : R -> R -> R.
Hypothesis P_prob : 0 <= P <= 1.
Hypothesis payoff_real : forall s, payoff (Fin s) K = Fin (g s K).

Let summand (i : nat) : R := g (S * U ^ i * D ^ (n - i)) K * binomial_mass i n P.

Lemma lattice_node_Fin (i : nat) :
  (i <= n)%nat ->
  lattice_node S K (Fin U) (Fin D) (Fin P) (Z.of_nat n) payoff (Z.of_nat i)
  = (Fin (S * U ^ i * D ^ (n - i)),
     Fin (g (S * U ^ i * D ^ (n - i)) K),
     Fin (binomial_mass i n P)).
Proof.
  intro Hi. unfold lattice_node.
  rewrite binom_pmf_Fin by assumption.
  rewrite <- Nat2Z.inj_sub by exact Hi.
  rewrite !np_pow_Fin_nat. cbn [np_mul].
  rewrite payoff_real. reflexivity.
Qed.

Lemma node_value_Fin (i : nat) :
  (i <= n)%nat ->
  node_value S K (Fin U) (Fin D) (Fin P) (Z.of_nat n) payoff (Z.of_nat i)
  = Fin (summand i).
Proof.
  intro Hi. unfold node_value. rewrite lattice_node_Fin by exact Hi. reflexivity.
Qed.

Lemma lattice_sum (m : nat) :
  (m <= n)%nat ->
  fold_left
    (fun p i => (p + node_value S K (Fin U) (Fin D) (Fin P) (Z.of_nat n) payoff i)%np)
    (map Z.of_nat (seq 0 (Datatypes.S m))) (Fin 0)
  = Fin (sum_f_R0 summand m).
Proof.
  induction m as [ | m IH]; intro Hm.
  - cbn [seq map fold_left]. rewrite (node_value_Fin 0) by lia.
    cbn [np_add sum_f_R0]. f_equal. ring.
  - rewrite seq_S, map_app, fold_left_app, IH by lia.
    cbn [map fold_left Nat.add]. rewrite node_value_Fin by lia.
    reflexivity.
Qed.

End LatticeSum.

(** ** [binomialPricer] as a whole *)

(** For [n <> 0] the division [T / n] succeeds and the call returns the
    discounted sum of the node values. *)
Lemma binomialPricer_returns (S K r v q T : R) (n : Z)
    (payoff : float64 -> R -> float64) (verbose : bool) :
  n <> 0%Z ->
  let h := T / IZR n in
  let u := lattice_u r v q h in
  let d := lattice_d r v q h in
  let pstar := lattice_pstar r v q h in
  binomialPricer S K r v q T n payoff verbose
  = (Ok (fold_left (fun p i => (p + node_value S K u d pstar n payoff i)%np)
                   (py_range (n + 1)) (Fin 0)
         * np_exp (Fin (- r * T)))%np,
     if verbose then map (lattice_node S K u d pstar n payoff) (py_range (n + 1))
     else []).
Proof.
  intros Hn h u d pstar. unfold binomialPricer.
  rewrite py_truediv_ok by (apply not_0_IZR, Hn).
  rewrite lattice_loop. reflexivity.
Qed.

Lemma binomialPricer_zero_steps (S K r v q T : R)
    (payoff : float64 -> R -> float64) (verbose : bool) :
  binomialPricer S K r v q T 0 payoff verbose = (Raise ZeroDivisionError, []).
Proof. unfold binomialPricer. rewrite py_truediv_zero. reflexivity. Qed.

Lemma binomialPricer_negative_steps (S K r v q T : R) (n : Z)
    (payoff : float64 -> R -> float64) (verbose : bool) :
  (n < 0)%Z ->
  binomialPricer S K r v q T n payoff verbose = (Ok (Fin 0), []).
Proof.
  intro Hn. rewrite binomialPricer_returns by lia.
  rewrite py_range_nonpos by lia. cbn [fold_left map np_exp np_mul].
  rewrite Rmult_0_l. destruct verbose; reflexivity.
Qed.

Lemma binomialPricer_no_probability (S K r v q T : R) (n : Z)
    (payoff : float64 -> R -> float64) (verbose : bool) :
  (1 <= n)%Z ->
  (forall x, lattice_pstar r v q (T / IZR n) = Fin x -> x < 0 \/ 1 < x) ->
  fst (binomialPricer S K r v q T n payoff verbose) = Ok NaN.
Proof.
  intros Hn Hp. rewrite binomialPricer_returns by lia. cbn [fst].
  rewrite lattice_loop_NaN; [reflexivity | | ].
  - intro i. apply binom_pmf_invalid, Hp.
  - intro Hnil. apply (f_equal (@List.length Z)) in Hnil.
    rewrite py_range_length in Hnil. simpl in Hnil. lia.
Qed.

Lemma binomialPricer_valid (S K r sigma delta T : R) (n : nat)
    (payoff : float64 -> R -> float64) (g : R -> R -> R) (verbose : bool) :
  0 < sigma -> 0 < T -> (1 <= n)%nat ->
  (forall s, payoff (Fin s) K = Fin (g s K)) ->
  fst (binomialPricer S K r sigma delta T (Z.of_nat n) payoff verbose)
  = Ok (Fin (crr_price S K r sigma delta T n g)).
Proof.
  intros Hv HT Hn Hpay.
  rewrite binomialPricer_returns by lia. cbn [fst].
  rewrite <- INR_IZR_INZ.
  assert (Hh : 0 < T / INR n).
  { apply Rdiv_lt_0_compat; [exact HT | apply lt_0_INR; lia]. }
  pose proof (crr_d_lt_u r sigma delta _ Hv Hh) as Hud.
  pose proof (crr_pstar_range r sigma delta _ Hv Hh) as HP.
  rewrite lattice_u_Fin, lattice_d_Fin, lattice_pstar_Fin by lra.
  rewrite py_range_succ.
  rewrite (lattice_sum S K (crr_u r sigma delta (T / INR n))
             (crr_d r sigma delta (T / INR n))
             (crr_pstar r sigma delta (T / INR n)) n payoff g)
    by (auto; lra).
  cbn [np_exp np_mul]. unfold crr_price. do 2 f_equal.
  rewrite Rmult_comm. f_equal.
  apply sum_eq. intros i _. unfold crr_terminal. ring.
Qed.

(** On valid parameters the quantities of the loop body at index [i] are
    the real numbers of the lattice. *)
Lemma lattice_node_valid (S K r sigma delta T : R) (n : Z)
    (payoff : float64 -> R -> float64) (g : R -> R -> R) (i : nat) :
  0 < sigma -> 0 < T -> (1 <= n)%Z -> (Z.of_nat i <= n)%Z ->
  (forall s, payoff (Fin s) K = Fin (g s K)) ->
  let h := T / IZR n in
  lattice_node S K (lattice_u r sigma delta h) (lattice_d r sigma delta h)
    (lattice_pstar r sigma delta h) n payoff (Z.of_nat i)
  = (Fin (crr_terminal S r sigma delta h (Z.to_nat n) i),
     Fin (g (crr_terminal S r sigma delta h (Z.to_nat n) i) K),
     Fin (binomial_mass i (Z.to_nat n) (crr_pstar r sigma delta h))).
Proof.
  intros Hv HT Hn Hi Hpay h.
  assert (Hh : 0 < h).
  { apply Rdiv_lt_0_compat; [exact HT | apply IZR_lt; lia]. }
  pose proof (crr_d_lt_u r sigma delta h Hv Hh) as Hud.
  pose proof (crr_pstar_range r sigma delta h Hv Hh) as HP.
  rewrite lattice_u_Fin, lattice_d_Fin, lattice_pstar_Fin by lra.
  rewrite <- (Z2Nat.id n) at 1 by lia.
  apply (lattice_node_Fin S K _ _ _ (Z.to_nat n) payoff g); [lra | exact Hpay | lia].
Qed.

(** ** The claims *)

(** C1.  For every input with S > 0, K > 0, sigma > 0 and T > 0,
    [blackScholesCall] returns exactly the Black-Scholes-Merton value
    S e^(-delta T) Phi(d1) - K e^(-r T) Phi(d2), with
    d1 = (ln (S/K) + (r - delta + 0.5 sigma^2) T) / (sigma sqrt T),
    d2 = d1 - sigma sqrt T and Phi the standard normal distribution
    function. *)
Theorem C1_call_is_bsm_value (S K sigma r T delta : R) :
  0 < S -> 0 < K -> 0 < sigma -> 0 < T ->
  let d1 := (ln (S / K) + (r - delta + 0.5 * sigma ^ 2) * T) / (sigma * sqrt T) in
  let d2 := d1 - sigma * sqrt T in
  blackScholesCall S K sigma r T delta
  = Ok (Fin (S * exp (- delta * T) * Gaussian.cdf d1
             - K * exp (- r * T) * Gaussian.cdf d2)).
Proof.
  intros HS HK Hv HT d1 d2.
  rewrite blackScholesCall_valid by assumption. reflexivity.
Qed.

Lemma C1_call_is_bsm_value_witness :
  blackScholesCall 41 40 0.3 0.08 0.25 0
  = Ok (Fin (bsm_call 41 40 0.3 0.08 0.25 0)).
Proof. apply (C1_call_is_bsm_value 41 40 0.3 0.08 0.25 0); lra. Defined.




(** C5.  For every valid parameter set (S, K, sigma, T > 0) the closed-form
    call and put prices satisfy put-call parity,
    Call - Put = S e^(-delta T) - K e^(-r T); the identity is exact on the
    reals, hence within the tolerance 1e-9. *)
Theorem C5_put_call_parity (S K sigma r T delta : R) :
  0 < S -> 0 < K -> 0 < sigma -> 0 < T ->
  exists c p,
    blackScholesCall S K sigma r T delta = Ok (Fin c)
    /\ blackScholesPut S K sigma r T delta = Ok (Fin p)
    /\ c - p = S * exp (- delta * T) - K * exp (- r * T)
    /\ Rabs ((c - p) - (S * exp (- delta * T) - K * exp (- r * T))) <= 1e-9.
Proof.
  intros HS HK Hv HT.
  exists (bsm_call S K sigma r T delta), (bsm_put S K sigma r T delta).
  assert (Hpar : bsm_call S K sigma r T delta - bsm_put S K sigma r T delta
                 = S * exp (- delta * T) - K * exp (- r * T)).
  { unfold bsm_call, bsm_put. rewrite !Gaussian.cdf_opp. ring. }
  repeat split.
  - apply blackScholesCall_valid; assumption.
  - apply blackScholesPut_valid; assumption.
  - exact Hpar.
  - rewrite Hpar. unfold Rminus. rewrite Rplus_opp_r, Rabs_R0. lra.
Qed.

Lemma C5_put_call_parity_witness :
  exists c p,
    blackScholesCall 41 40 0.3 0.08 0.25 0 = Ok (Fin c)
    /\ blackScholesPut 41 40 0.3 0.08 0.25 0 = Ok (Fin p)
    /\ c - p = 41 * exp (- 0 * 0.25) - 40 * exp (- (0.08) * 0.25)
    /\ Rabs ((c - p) - (41 * exp (- 0 * 0.25) - 40 * exp (- (0.08) * 0.25))) <= 1e-9.
Proof. apply (C5_put_call_parity 41 40 0.3 0.08 0.25 0); lra. Defined.


Section PayoffIdentityOnDoubles.

Import Floats.


End PayoffIdentityOnDoubles.

(** C2.  For every input with sigma > 0, T > 0 and integer n >= 1 (and any
    S and K, positive in particular), [binomialPricer] returns exactly
    exp(-r T) * sum_{i=0..n} pmf(i; n, p) * payoff(S u^i d^(n-i), K), where
    h = T/n, u = exp((r - delta) h + sigma sqrt h),
    d = exp((r - delta) h - sigma sqrt h) and p = (exp((r - delta) h) - d)
    / (u - d).  The payoff is any function that is real-valued on real
    terminal prices, [g] being its values. *)
Theorem C2_lattice_is_discounted_expectation (S K r sigma delta T : R) (n : nat)
    (payoff : float64 -> R -> float64) (g : R -> R -> R) (verbose : bool) :
  0 < sigma -> 0 < T -> (1 <= n)%nat ->
  (forall s, payoff (Fin s) K = Fin (g s K)) ->
  let h := T / INR n in
  let u := exp ((r - delta) * h + sigma * sqrt h) in
  let d := exp ((r - delta) * h - sigma * sqrt h) in
  let p := (exp ((r - delta) * h) - d) / (u - d) in
  fst (binomialPricer S K r sigma delta T (Z.of_nat n) payoff verbose)
  = Ok (Fin (exp (- r * T)
             * sum_f_R0 (fun i => binomial_mass i n p
                                  * g (S * u ^ i * d ^ (n - i)) K) n)).
Proof.
  intros Hv HT Hn Hpay h u d p.
  rewrite (binomialPricer_valid S K r sigma delta T n payoff g) by assumption.
  reflexivity.
Qed.

Lemma C2_lattice_is_discounted_expectation_witness :
  fst (binomialPricer 41 40 0.08 0.3 0 0.25 (Z.of_nat 10) callPayoff false)
  = Ok (Fin (crr_price 41 40 0.08 0.3 0 0.25 10 call_payoff)).
Proof.
  apply (C2_lattice_is_discounted_expectation
           41 40 0.08 0.3 0 0.25 10 callPayoff call_payoff false);
    [lra | lra | lia | intro s; reflexivity].
Defined.

(** C3, as the code has it.  [binomialPricer] validates nothing and never
    fails with DomainError.  For n = 0 it fails with Python's
    ZeroDivisionError, raised by [h = T / n] before anything is computed or
    printed; for negative n the loop is empty and it returns 0.0; for
    n >= 1, when u == d, or more generally when pstar is not a number in
    [0, 1], every probability mass is NaN and it returns NaN. *)
Theorem C3_lattice_failures (S K r v q T : R) (n : Z)
    (payoff : float64 -> R -> float64) (verbose : bool) :
  fst (binomialPricer S K r v q T n payoff verbose) <> Raise DomainError
  /\ (n = 0%Z ->
      binomialPricer S K r v q T n payoff verbose = (Raise ZeroDivisionError, []))
  /\ ((n < 0)%Z ->
      binomialPricer S K r v q T n payoff verbose = (Ok (Fin 0), []))
  /\ ((1 <= n)%Z ->
      lattice_u r v q (T / IZR n) = lattice_d r v q (T / IZR n) ->
      fst (binomialPricer S K r v q T n payoff verbose) = Ok NaN)
  /\ ((1 <= n)%Z -> v = 0 \/ T = 0 ->
      fst (binomialPricer S K r v q T n payoff verbose) = Ok NaN)
  /\ ((1 <= n)%Z ->
      (forall x, lattice_pstar r v q (T / IZR n) = Fin x -> x < 0 \/ 1 < x) ->
      fst (binomialPricer S K r v q T n payoff verbose) = Ok NaN).
Proof.
  assert (Hflat : (1 <= n)%Z ->
            lattice_u r v q (T / IZR n) = lattice_d r v q (T / IZR n) ->
            fst (binomialPricer S K r v q T n payoff verbose) = Ok NaN).
  { intros Hn Heq. apply binomialPricer_no_probability; [exact Hn | ].
    apply lattice_pstar_degenerate, Heq. }
  split; [ | split; [ | split; [ | split; [ | split]]]].
  - destruct (Z.eq_dec n 0) as [-> | Hn].
    + rewrite binomialPricer_zero_steps. discriminate.
    + rewrite binomialPricer_returns by exact Hn. discriminate.
  - intros ->. apply binomialPricer_zero_steps.
  - apply binomialPricer_negative_steps.
  - exact Hflat.
  - intros Hn [Hv | HT]; apply Hflat; try exact Hn.
    + apply lattice_flat_zero_vol, Hv.
    + apply lattice_flat_zero_step. rewrite HT. unfold Rdiv. ring.
  - apply binomialPricer_no_probability.
Qed.

Lemma C3_lattice_failures_witness :
  fst (binomialPricer 41 40 0.08 0 0 0.25 10 callPayoff false) = Ok NaN.
Proof.
  apply (proj1 (proj2 (proj2 (proj2 (proj2
           (C3_lattice_failures 41 40 0.08 0 0 0.25 10 callPayoff false)))))).
  - lia.
  - left. reflexivity.
Defined.

(** C3, counterexample to the claim as stated: with n = -5 and otherwise the
    notebook's parameters the call returns 0.0 and raises nothing (and with
    n = 0 what it raises is ZeroDivisionError, not DomainError). *)
Lemma C3_negative_steps_return_zero :
  binomialPricer 41 40 0.08 0.3 0 0.25 (-5) callPayoff true = (Ok (Fin 0), [])
  /\ fst (binomialPricer 41 40 0.08 0.3 0 0.25 (-5) callPayoff true)
     <> Raise DomainError
  /\ fst (binomialPricer 41 40 0.08 0.3 0 0.25 0 callPayoff true)
     <> Raise DomainError.
Proof.
  assert (A : binomialPricer 41 40 0.08 0.3 0 0.25 (-5) callPayoff true
              = (Ok (Fin 0), [])).
  { unfold binomialPricer. rewrite py_truediv_ok by lra.
    cbn [Z.add Z.pos_sub Pos.pred_double py_range Z.to_nat seq map fold_left
         fst snd np_exp np_mul].
    rewrite Rmult_0_l. reflexivity. }
  repeat split.
  - exact A.
  - rewrite A. discriminate.
  - rewrite binomialPricer_zero_steps. discriminate.
Qed.

(** Position of the factors relative to 1. *)
Lemma crr_straddles_one (r v q h : R) :
  0 < h ->
  (1 < crr_u r v q h /\ crr_d r v q h < 1) <-> Rabs (r - q) * sqrt h < v.
Proof.
  intro Hh. unfold crr_u, crr_d. rewrite exp_gt_1_iff, exp_lt_1_iff.
  assert (Hw : 0 < sqrt h) by (apply sqrt_lt_R0, Hh).
  assert (Hww : sqrt h * sqrt h = h) by (apply sqrt_sqrt; lra).
  rewrite <- Hww at 1 3. set (w := sqrt h) in *. clearbody w.
  unfold Rabs. destruct (Rcase_abs (r - q)) as [Hneg | Hpos]; split.
  - intros [H1 H2]. nra.
  - intro H. split; nra.
  - intros [H1 H2]. nra.
  - intro H. split; nra.
Qed.

(** C7, as the code has it.  For sigma > 0, T > 0 and integer n >= 1, with
    h = T/n, the factors are real numbers with u > d > 0; they lie on either
    side of 1 (u > 1 > d) exactly when |r - delta| sqrt h < sigma; and the
    tree recombines: multiplying a node price by u then d, or by d then u,
    gives the same price. *)
Theorem C7_lattice_factors (r sigma delta T : R) (n : Z) :
  0 < sigma -> 0 < T -> (1 <= n)%Z ->
  let h := T / IZR n in
  exists U D,
    lattice_u r sigma delta h = Fin U
    /\ lattice_d r sigma delta h = Fin D
    /\ 0 < D < U
    /\ ((1 < U /\ D < 1) <-> Rabs (r - delta) * sqrt h < sigma)
    /\ (forall x : R,
          (Fin x * lattice_u r sigma delta h * lattice_d r sigma delta h)%np
          = (Fin x * lattice_d r sigma delta h * lattice_u r sigma delta h)%np).
Proof.
  intros Hv HT Hn h.
  assert (Hh : 0 < h).
  { apply Rdiv_lt_0_compat; [exact HT | apply IZR_lt; lia]. }
  exists (crr_u r sigma delta h), (crr_d r sigma delta h).
  rewrite lattice_u_Fin, lattice_d_Fin by lra.
  split; [reflexivity | ]. split; [reflexivity | ].
  split; [ | split].
  - split; [apply crr_d_pos | apply crr_d_lt_u; assumption].
  - apply crr_straddles_one, Hh.
  - intro x. cbn [np_mul]. f_equal. ring.
Qed.

Lemma C7_lattice_factors_witness :
  exists U D,
    lattice_u 0.08 0.3 0 (0.25 / IZR 10) = Fin U
    /\ lattice_d 0.08 0.3 0 (0.25 / IZR 10) = Fin D
    /\ 0 < D < U
    /\ ((1 < U /\ D < 1) <-> Rabs (0.08 - 0) * sqrt (0.25 / IZR 10) < 0.3)
    /\ (forall x : R,
          (Fin x * lattice_u 0.08 0.3 0 (0.25 / IZR 10)
           * lattice_d 0.08 0.3 0 (0.25 / IZR 10))%np
          = (Fin x * lattice_d 0.08 0.3 0 (0.25 / IZR 10)
             * lattice_u 0.08 0.3 0 (0.25 / IZR 10))%np).
Proof. apply (C7_lattice_factors 0.08 0.3 0 0.25 10); [lra | lra | lia]. Defined.

(** C7, counterexample to the claim as stated: with the notebook's rate and
    volatility (r = 0.08, sigma = 0.30, delta = 0), T = 16 and n = 1, the
    step is h = 16 and d = exp(0.08 * 16 - 0.30 * 4) = exp(0.08) > 1, so
    u > 1 > d fails. *)
Lemma C7_down_factor_above_one :
  py_truediv 16 (IZR 1) = Ok 16
  /\ lattice_d 0.08 0.3 0 16 = Fin (exp ((0.08 - 0) * 16 - 0.3 * 4))
  /\ 1 < exp ((0.08 - 0) * 16 - 0.3 * 4).
Proof.
  assert (Hs : sqrt 16 = 4).
  { replace 16 with (4 * 4) by lra. apply sqrt_square. lra. }
  repeat split.
  - rewrite py_truediv_ok by lra. f_equal. lra.
  - rewrite lattice_d_Fin by lra. unfold crr_d. rewrite Hs. reflexivity.
  - apply exp_gt_1_iff. lra.
Qed.

(** C8.  For every input the result of [binomialPricer] is the same with
    verbose=True and with verbose=False, and without the diagnostic mode
    nothing is printed.  With it, for n >= 1, the call prints exactly n + 1
    lines, the i-th being the tuple (terminal price, payoff, probability
    mass) of terminal index i, for i = 0 .. n: the float64 values
    S * u**i * d**(n - i), payoff(spotT, K) and binom.pmf(i, n, pstar), which
    on valid parameters are the real numbers S u^i d^(n-i), the payoff there
    and C(n, i) p^i (1 - p)^(n-i). *)
Theorem C8_verbose_frame (S K r v q T : R) (n : Z)
    (payoff : float64 -> R -> float64) (g : R -> R -> R) :
  fst (binomialPricer S K r v q T n payoff true)
  = fst (binomialPricer S K r v q T n payoff false)
  /\ snd (binomialPricer S K r v q T n payoff false) = []
  /\ ((1 <= n)%Z ->
      let h := T / IZR n in
      let node := lattice_node S K (lattice_u r v q h) (lattice_d r v q h)
                    (lattice_pstar r v q h) n payoff in
      let out := snd (binomialPricer S K r v q T n payoff true) in
      out = map node (py_range (n + 1))
      /\ Z.of_nat (List.length out) = (n + 1)%Z
      /\ (forall i : nat, (Z.of_nat i <= n)%Z ->
            nth_error out i = Some (node (Z.of_nat i))))
  /\ ((1 <= n)%Z ->
      let h := T / IZR n in
      let u := np_exp (Fin ((r - q) * h) + Fin v * np_sqrt (Fin h))%np in
      let d := np_exp (Fin ((r - q) * h) - Fin v * np_sqrt (Fin h))%np in
      let pstar := ((np_exp (Fin ((r - q) * h)) - d) / (u - d))%np in
      forall i : nat, (Z.of_nat i <= n)%Z ->
        let spotT := (Fin S * np_pow u (Z.of_nat i) * np_pow d (n - Z.of_nat i))%np in
        nth_error (snd (binomialPricer S K r v q T n payoff true)) i
        = Some (spotT, payoff spotT K, binom_pmf (Z.of_nat i) n pstar))
  /\ ((1 <= n)%Z -> 0 < v -> 0 < T ->
      (forall s, payoff (Fin s) K = Fin (g s K)) ->
      let h := T / IZR n in
      let u := exp ((r - q) * h + v * sqrt h) in
      let d := exp ((r - q) * h - v * sqrt h) in
      let p := (exp ((r - q) * h) - d) / (u - d) in
      forall i : nat, (Z.of_nat i <= n)%Z ->
        let s_i := S * u ^ i * d ^ (Z.to_nat n - i) in
        nth_error (snd (binomialPricer S K r v q T n payoff true)) i
        = Some (Fin s_i, Fin (g s_i K),
                Fin (C (Z.to_nat n) i * p ^ i * (1 - p) ^ (Z.to_nat n - i)))).
Proof.
  assert (Hnth : (1 <= n)%Z -> forall i : nat, (Z.of_nat i <= n)%Z ->
            nth_error (snd (binomialPricer S K r v q T n payoff true)) i
            = Some (lattice_node S K (lattice_u r v q (T / IZR n))
                      (lattice_d r v q (T / IZR n))
                      (lattice_pstar r v q (T / IZR n)) n payoff (Z.of_nat i))).
  { intros Hn i Hi. rewrite binomialPricer_returns by lia. cbn [snd].
    unfold py_range. rewrite map_map, nth_error_map.
    rewrite nth_error_nth' with (d := 0%nat) by (rewrite length_seq; lia).
    rewrite seq_nth by lia. reflexivity. }
  split; [ | split; [ | split; [ | split]]].
  - destruct (Z.eq_dec n 0) as [-> | Hn].
    + rewrite !binomialPricer_zero_steps. reflexivity.
    + rewrite !binomialPricer_returns by exact Hn. reflexivity.
  - destruct (Z.eq_dec n 0) as [-> | Hn].
    + rewrite binomialPricer_zero_steps. reflexivity.
    + rewrite binomialPricer_returns by exact Hn. reflexivity.
  - intros Hn h node out. split; [ | split].
    + unfold out. rewrite binomialPricer_returns by lia. reflexivity.
    + unfold out. rewrite binomialPricer_returns by lia. cbn [snd].
      rewrite length_map, py_range_length. lia.
    + intros i Hi. apply Hnth; assumption.
  - intros Hn h u d pstar i Hi spotT. rewrite Hnth by assumption. reflexivity.
  - intros Hn Hv HT Hpay h u d p i Hi s_i. rewrite Hnth by assumption.
    rewrite (lattice_node_valid S K r v q T n payoff g i) by assumption.
    reflexivity.
Qed.

Lemma C8_verbose_frame_witness :
  Z.of_nat (List.length
              (snd (binomialPricer 41 40 0.08 0.3 0 0.25 10 callPayoff true)))
  = 11%Z
  /\ nth_error (snd (binomialPricer 41 40 0.08 0.3 0 0.25 10 callPayoff true)) 0
     = Some (Fin (crr_terminal 41 0.08 0.3 0 (0.25 / IZR 10) 10 0),
             Fin (call_payoff (crr_terminal 41 0.08 0.3 0 (0.25 / IZR 10) 10 0) 40),
             Fin (binomial_mass 0 10 (crr_pstar 0.08 0.3 0 (0.25 / IZR 10)))).
Proof.
  split.
  - apply (proj1 (proj2 (proj2
             (C8_verbose_frame 41 40 0.08 0.3 0 0.25 10 callPayoff call_payoff)))).
    lia.
  - apply (proj2 (proj2 (proj2 (proj2
             (C8_verbose_frame 41 40 0.08 0.3 0 0.25 10 callPayoff call_payoff))))
             ltac:(lia) ltac:(lra) ltac:(lra) (fun s => eq_refl) 0%nat ltac:(lia)).
Defined.

(** C9.  On valid input both prices are non-negative: [blackScholesCall]
    for S, K, sigma, T > 0, and [binomialPricer] for sigma, T > 0, integer
    n >= 1 and a payoff that is non-negative (the risk-neutral probability
    is then in (0, 1) by itself). *)
Theorem C9_prices_nonneg :
  (forall S K sigma r T delta : R,
      0 < S -> 0 < K -> 0 < sigma -> 0 < T ->
      exists c, blackScholesCall S K sigma r T delta = Ok (Fin c) /\ 0 <= c)
  /\ (forall (S K r sigma delta T : R) (n : nat)
        (payoff : float64 -> R -> float64) (g : R -> R -> R) (verbose : bool),
      0 < S -> 0 < K -> 0 < sigma -> 0 < T -> (1 <= n)%nat ->
      (forall s, payoff (Fin s) K = Fin (g s K)) ->
      (forall s, 0 <= g s K) ->
      exists p x,
        lattice_pstar r sigma delta (T / IZR (Z.of_nat n)) = Fin p
        /\ 0 < p < 1
        /\ fst (binomialPricer S K r sigma delta T (Z.of_nat n) payoff verbose)
           = Ok (Fin x)
        /\ 0 <= x).
Proof.
  split.
  - intros S K sigma r T delta HS HK Hv HT.
    exists (bsm_call S K sigma r T delta). split.
    + apply blackScholesCall_valid; assumption.
    + apply bsm_call_nonneg; assumption.
  - intros S K r sigma delta T n payoff g verbose _ _ Hv HT Hn Hpay Hg.
    assert (Hh : 0 < T / INR n).
    { apply Rdiv_lt_0_compat; [exact HT | apply lt_0_INR; lia]. }
    pose proof (crr_d_lt_u r sigma delta _ Hv Hh) as Hud.
    pose proof (crr_pstar_range r sigma delta _ Hv Hh) as HP.
    exists (crr_pstar r sigma delta (T / INR n)),
           (crr_price S K r sigma delta T n g).
    rewrite <- INR_IZR_INZ. repeat split.
    + apply lattice_pstar_Fin; lra.
    + apply HP.
    + apply HP.
    + apply binomialPricer_valid; assumption.
    + unfold crr_price. apply Rmult_le_pos; [left; apply exp_pos | ].
      apply cond_pos_sum. intro i.
      apply Rmult_le_pos; [apply binomial_mass_nonneg; lra | apply Hg].
Qed.

Lemma C9_prices_nonneg_witness :
  (exists c, blackScholesCall 41 40 0.3 0.08 0.25 0 = Ok (Fin c) /\ 0 <= c)
  /\ (exists p x,
        lattice_pstar 0.08 0.3 0 (0.25 / IZR (Z.of_nat 10)) = Fin p
        /\ 0 < p < 1
        /\ fst (binomialPricer 41 40 0.08 0.3 0 0.25 (Z.of_nat 10) callPayoff false)
           = Ok (Fin x)
        /\ 0 <= x).
Proof.
  split.
  - apply (proj1 C9_prices_nonneg 41 40 0.3 0.08 0.25 0); lra.
  - apply (proj2 C9_prices_nonneg 41 40 0.08 0.3 0 0.25 10%nat
             callPayoff call_payoff false);
      [lra | lra | lra | lra | lia | intro s; reflexivity
      | intro s; apply Rmax_r].
Defined.

(** C10.  For every r, delta, sigma and h for which the factors
    u = exp((r - delta) h + sigma sqrt h) and
    d = exp((r - delta) h - sigma sqrt h) are numbers with u <> d, the
    risk-neutral probability p = (exp((r - delta) h) - d) / (u - d)
    computed by [binomialPricer] satisfies p u + (1 - p) d
    = exp((r - delta) h). *)
Theorem C10_one_step_martingale (r sigma delta h U D : R) :
  lattice_u r sigma delta h = Fin U ->
  lattice_d r sigma delta h = Fin D ->
  U <> D ->
  exists p,
    lattice_pstar r sigma delta h = Fin p
    /\ p * U + (1 - p) * D = exp ((r - delta) * h).
Proof.
  intros HU HD Hne.
  destruct (Rlt_dec h 0) as [Hh | Hh].
  - rewrite lattice_u_neg in HU by exact Hh. discriminate.
  - rewrite lattice_u_Fin in HU by lra. rewrite lattice_d_Fin in HD by lra.
    injection HU as <-. injection HD as <-.
    exists (crr_pstar r sigma delta h). split.
    + apply lattice_pstar_Fin; [lra | exact Hne].
    + apply crr_martingale, Hne.
Qed.

Lemma C10_one_step_martingale_witness :
  exists p,
    lattice_pstar 0.08 0.3 0 0.025 = Fin p
    /\ p * crr_u 0.08 0.3 0 0.025 + (1 - p) * crr_d 0.08 0.3 0 0.025
       = exp ((0.08 - 0) * 0.025).
Proof.
  apply (C10_one_step_martingale 0.08 0.3 0 0.025).
  - apply lattice_u_Fin. lra.
  - apply lattice_d_Fin. lra.
  - apply Rgt_not_eq. apply crr_d_lt_u; lra.
Defined.

(* ================================================================= *)
(** * Part 6. Further properties of the notebook's functions *)

(** ** Expectations on the lattice *)

Lemma exp_pow_nat (x : R) (n : nat) : exp x ^ n = exp (INR n * x).
Proof.
  induction n as [ | n IH].
  - simpl. rewrite Rmult_0_l, exp_0. reflexivity.
  - rewrite S_INR. simpl. rewrite IH, <- exp_plus. f_equal. ring.
Qed.

Section LatticeExpectation.

Variables S K r sigma delta T : R.
Variable n : nat.
Hypothesis sigma_pos : 0 < sigma.
Hypothesis T_pos : 0 < T.
Hypothesis n_pos : (1 <= n)%nat.

Let h := T / INR n.
Let P := crr_pstar r sigma delta h.
Let mass (i : nat) : R := binomial_mass i n P.
Let term (i : nat) : R := crr_terminal S r sigma delta h n i.

Lemma step_pos : 0 < h.
Proof. apply Rdiv_lt_0_compat; [exact T_pos | apply lt_0_INR; lia]. Qed.

Lemma mass_nonneg (i : nat) : 0 <= mass i.
Proof.
  apply binomial_mass_nonneg.
  pose proof (crr_pstar_range r sigma delta h sigma_pos step_pos). fold P in H. lra.
Qed.

Lemma crr_price_expectation (g : R -> R -> R) :
  crr_price S K r sigma delta T n g
  = exp (- r * T) * sum_f_R0 (fun i => mass i * g (term i) K) n.
Proof. reflexivity. Qed.

(** A sure payment keeps its value: the masses add up to one. *)
Lemma expectation_const (c : R) : sum_f_R0 (fun i => mass i * c) n = c.
Proof.
  rewrite <- scal_sum. unfold mass. rewrite binomial_mass_total. ring.
Qed.

(** The expected terminal price is the forward price: the [n]-step form of
    the one-step identity [p u + (1 - p) d = exp ((r - delta) h)]. *)
Lemma expectation_terminal :
  sum_f_R0 (fun i => mass i * term i) n = S * exp ((r - delta) * T).
Proof.
  pose proof step_pos as Hh.
  pose proof (crr_d_lt_u r sigma delta h sigma_pos Hh) as Hud.
  assert (Hmart := crr_martingale r sigma delta h (Rgt_not_eq _ _ Hud)).
  fold P in Hmart.
  rewrite (sum_eq _ (fun i => C n i * (P * crr_u r sigma delta h) ^ i
                               * ((1 - P) * crr_d r sigma delta h) ^ (n - i) * S)).
  - rewrite <- scal_sum, <- binomial, Hmart, exp_pow_nat.
    f_equal. f_equal. unfold h. field.
    apply not_0_INR. lia.
  - intros i _. unfold mass, term, binomial_mass, crr_terminal.
    rewrite !Rpow_mult_distr. ring.
Qed.

Lemma crr_price_const (c : R) :
  crr_price S K r sigma delta T n (fun _ _ => c) = c * exp (- r * T).
Proof. rewrite crr_price_expectation, expectation_const. ring. Qed.

Lemma crr_price_spot :
  crr_price S K r sigma delta T n (fun s _ => s) = S * exp (- delta * T).
Proof.
  rewrite crr_price_expectation, expectation_terminal.
  rewrite (Rmult_comm S), <- Rmult_assoc, <- exp_plus, Rmult_comm.
  do 2 f_equal. ring.
Qed.

Lemma crr_price_linear (a : R) (g1 g2 : R -> R -> R) :
  crr_price S K r sigma delta T n (fun s k => a * g1 s k + g2 s k)
  = a * crr_price S K r sigma delta T n g1 + crr_price S K r sigma delta T n g2.
Proof.
  rewrite !crr_price_expectation.
  rewrite (sum_eq _ (fun i => mass i * g1 (term i) K * a + mass i * g2 (term i) K))
    by (intros; ring).
  rewrite sum_plus, <- scal_sum. ring.
Qed.

(** Only the payoff at the [n + 1] terminal prices matters. *)
Lemma crr_price_le (g1 g2 : R -> R -> R) :
  (forall i, (i <= n)%nat -> g1 (term i) K <= g2 (term i) K) ->
  crr_price S K r sigma delta T n g1 <= crr_price S K r sigma delta T n g2.
Proof.
  intro Hle. rewrite !crr_price_expectation.
  apply Rmult_le_compat_l; [left; apply exp_pos | ].
  apply sum_Rle. intros i Hi.
  apply Rmult_le_compat_l; [apply mass_nonneg | apply Hle, Hi].
Qed.

Lemma crr_price_ext (g1 g2 : R -> R -> R) :
  (forall i, (i <= n)%nat -> g1 (term i) K = g2 (term i) K) ->
  crr_price S K r sigma delta T n g1 = crr_price S K r sigma delta T n g2.
Proof.
  intro Heq. apply Rle_antisym; apply crr_price_le; intros i Hi;
    rewrite (Heq i Hi); apply Rle_refl.
Qed.

(** Call minus put pays [s - K] at every node. *)
Lemma crr_parity :
  crr_price S K r sigma delta T n call_payoff
  - crr_price S K r sigma delta T n put_payoff
  = S * exp (- delta * T) - K * exp (- r * T).
Proof.
  rewrite <- crr_price_spot, <- (crr_price_const K).
  assert (Hc : crr_price S K r sigma delta T n call_payoff
               = crr_price S K r sigma delta T n
                   (fun s k => 1 * put_payoff s k + (s - k))).
  { apply crr_price_ext. intros i _.
    unfold call_payoff, put_payoff, Rmax.
    destruct (Rle_dec (term i - K) 0), (Rle_dec (K - term i) 0); lra. }
  assert (Hf : crr_price S K r sigma delta T n (fun s k => s - k)
               = crr_price S K r sigma delta T n
                   (fun s k => (-1) * (fun _ _ => K) s k + (fun s _ => s) s k)).
  { apply crr_price_ext. intros i _. ring. }
  rewrite Hc, (crr_price_linear 1 put_payoff (fun s k => s - k)).
  rewrite Hf, (crr_price_linear (-1) (fun _ _ => K) (fun s _ => s)). ring.
Qed.

End LatticeExpectation.

(** ** What [binomialPricer] prints on valid parameters *)

Lemma binomialPricer_lines (S K r sigma delta T : R) (n : nat)
    (payoff : float64 -> R -> float64) (g : R -> R -> R) :
  0 < sigma -> 0 < T -> (1 <= n)%nat ->
  (forall s, payoff (Fin s) K = Fin (g s K)) ->
  let h := T / INR n in
  snd (binomialPricer S K r sigma delta T (Z.of_nat n) payoff true)
  = map (fun i => (Fin (crr_terminal S r sigma delta h n i),
                   Fin (g (crr_terminal S r sigma delta h n i) K),
                   Fin (binomial_mass i n (crr_pstar r sigma delta h))))
        (seq 0 (Datatypes.S n)).
Proof.
  intros Hv HT Hn Hpay h.
  rewrite binomialPricer_returns by lia. cbn [snd].
  rewrite <- INR_IZR_INZ. fold h.
  assert (Hh : 0 < h) by (apply step_pos; assumption).
  pose proof (crr_d_lt_u r sigma delta h Hv Hh) as Hud.
  pose proof (crr_pstar_range r sigma delta h Hv Hh) as HP.
  rewrite lattice_u_Fin, lattice_d_Fin, lattice_pstar_Fin by lra.
  rewrite py_range_succ, map_map.
  apply map_ext_in. intros i Hi. apply in_seq in Hi.
  apply (lattice_node_Fin S K _ _ _ n payoff g); [lra | exact Hpay | lia].
Qed.



Lemma binomial_mass_pos (k n : nat) (p : R) :
  (k <= n)%nat -> 0 < p < 1 -> 0 < binomial_mass k n p.
Proof.
  intros Hk Hp. unfold binomial_mass, C.
  apply Rmult_lt_0_compat; [apply Rmult_lt_0_compat | ].
  - apply Rdiv_lt_0_compat; [apply lt_0_INR, lt_O_fact | ].
    apply Rmult_lt_0_compat; apply lt_0_INR, lt_O_fact.
  - apply pow_lt; lra.
  - apply pow_lt; lra.
Qed.



Lemma crr_terminal_nonneg (S r sigma delta h : R) (n i : nat) :
  0 <= S -> 0 <= crr_terminal S r sigma delta h n i.
Proof.
  intro HS. unfold crr_terminal.
  apply Rmult_le_pos; [apply Rmult_le_pos; [exact HS | ] | ];
    apply pow_le; left; apply exp_pos.
Qed.


(** Bounds on the terminal prices: the lowest is [S d^n], the highest
    [S u^n]. *)
Lemma crr_terminal_bounds (S r sigma delta h : R) (n i : nat) :
  0 <= S -> 0 < sigma -> 0 < h -> (i <= n)%nat ->
  S * crr_d r sigma delta h ^ n
  <= crr_terminal S r sigma delta h n i
  <= S * crr_u r sigma delta h ^ n.
Proof.
  intros HS Hv Hh Hi.
  pose proof (crr_d_lt_u r sigma delta h Hv Hh) as Hud.
  pose proof (crr_d_pos r sigma delta h) as Hd.
  unfold crr_terminal.
  replace n with (i + (n - i))%nat at 1 4 by lia. rewrite !pow_add.
  set (U := crr_u r sigma delta h) in *. set (D := crr_d r sigma delta h) in *.
  assert (HDi : 0 <= D ^ i) by (apply pow_le; lra).
  assert (HDk : 0 <= D ^ (n - i)) by (apply pow_le; lra).
  assert (HUi : D ^ i <= U ^ i) by (apply pow_incr; lra).
  assert (HUk : D ^ (n - i) <= U ^ (n - i)) by (apply pow_incr; lra).
  split.
  - rewrite <- Rmult_assoc. apply Rmult_le_compat_r; [exact HDk | ].
    apply Rmult_le_compat_l; assumption.
  - rewrite <- Rmult_assoc. apply Rmult_le_compat_l; [ | exact HUk].
    apply Rmult_le_pos; [exact HS | lra].
Qed.

(** ** The lattice pricer as a pricing rule *)



(** X8.  The lattice prices the underlying itself at its prepaid forward:
    with the payoff that returns the terminal price, [binomialPricer]
    returns S e^(-q T), whatever the number of steps. *)
Theorem lattice_prices_underlying (S K r v q T : R) (n : nat) (verbose : bool) :
  0 < v -> 0 < T -> (1 <= n)%nat ->
  fst (binomialPricer S K r v q T (Z.of_nat n) (fun spotT _ => spotT) verbose)
  = Ok (Fin (S * exp (- q * T))).
Proof.
  intros Hv HT Hn.
  rewrite (binomialPricer_valid S K r v q T n _ (fun s _ => s)) by auto.
  rewrite crr_price_spot by assumption. reflexivity.
Qed.

Lemma lattice_prices_underlying_witness :
  fst (binomialPricer 41 40 0.08 0.3 0 0.25 (Z.of_nat 10) (fun spotT _ => spotT) false)
  = Ok (Fin (41 * exp (- 0 * 0.25))).
Proof.
  apply (lattice_prices_underlying 41 40 0.08 0.3 0 0.25 10 false); [lra | lra | lia].
Defined.

(** X9.  The lattice discounts a sure payment at the risk-free rate: with a
    payoff that returns the constant c, [binomialPricer] returns
    c e^(-r T). *)
Theorem lattice_discounts_sure_payment (S K r v q T c : R) (n : nat)
    (verbose : bool) :
  0 < v -> 0 < T -> (1 <= n)%nat ->
  fst (binomialPricer S K r v q T (Z.of_nat n) (fun _ _ => Fin c) verbose)
  = Ok (Fin (c * exp (- r * T))).
Proof.
  intros Hv HT Hn.
  rewrite (binomialPricer_valid S K r v q T n _ (fun _ _ => c)) by auto.
  rewrite crr_price_const by assumption. reflexivity.
Qed.

Lemma lattice_discounts_sure_payment_witness :
  fst (binomialPricer 41 40 0.08 0.3 0 0.25 (Z.of_nat 10) (fun _ _ => Fin 1) false)
  = Ok (Fin (1 * exp (- (0.08) * 0.25))).
Proof.
  apply (lattice_discounts_sure_payment 41 40 0.08 0.3 0 0.25 1 10 false);
    [lra | lra | lia].
Defined.

(** X10.  [binomialPricer] is linear in the payoff: the price of the payoff
    a * payoff1 + payoff2 is a times the price of payoff1 plus the price of
    payoff2. *)
Theorem lattice_linear_in_payoff (S K r v q T a : R) (n : nat)
    (payoff1 payoff2 : float64 -> R -> float64) (g1 g2 : R -> R -> R)
    (verbose : bool) :
  0 < v -> 0 < T -> (1 <= n)%nat ->
  (forall s, payoff1 (Fin s) K = Fin (g1 s K)) ->
  (forall s, payoff2 (Fin s) K = Fin (g2 s K)) ->
  exists x1 x2,
    fst (binomialPricer S K r v q T (Z.of_nat n) payoff1 verbose) = Ok (Fin x1)
    /\ fst (binomialPricer S K r v q T (Z.of_nat n) payoff2 verbose) = Ok (Fin x2)
    /\ fst (binomialPricer S K r v q T (Z.of_nat n)
              (fun s k => (Fin a * payoff1 s k + payoff2 s k)%np) verbose)
       = Ok (Fin (a * x1 + x2)).
Proof.
  intros Hv HT Hn H1 H2.
  exists (crr_price S K r v q T n g1), (crr_price S K r v q T n g2).
  split; [ | split].
  - apply binomialPricer_valid; auto.
  - apply binomialPricer_valid; auto.
  - rewrite (binomialPricer_valid S K r v q T n _
               (fun s k => a * g1 s k + g2 s k)); auto.
    + rewrite crr_price_linear. reflexivity.
    + intro s. rewrite H1, H2. reflexivity.
Qed.

Lemma lattice_linear_in_payoff_witness :
  exists x1 x2,
    fst (binomialPricer 41 40 0.08 0.3 0 0.25 (Z.of_nat 10) callPayoff false)
      = Ok (Fin x1)
    /\ fst (binomialPricer 41 40 0.08 0.3 0 0.25 (Z.of_nat 10) putPayoff false)
      = Ok (Fin x2)
    /\ fst (binomialPricer 41 40 0.08 0.3 0 0.25 (Z.of_nat 10)
              (fun s k => (Fin 2 * callPayoff s k + putPayoff s k)%np) false)
       = Ok (Fin (2 * x1 + x2)).
Proof.
  apply (lattice_linear_in_payoff 41 40 0.08 0.3 0 0.25 2 10
           callPayoff putPayoff call_payoff put_payoff false);
    [lra | lra | lia | intro s; reflexivity | intro s; reflexivity].
Defined.

(** X11.  [binomialPricer] is monotone in the payoff: a payoff that pays at
    least as much at every terminal price has at least as high a price. *)
Theorem lattice_monotone_in_payoff (S K r v q T : R) (n : nat)
    (payoff1 payoff2 : float64 -> R -> float64) (g1 g2 : R -> R -> R)
    (verbose : bool) :
  0 < v -> 0 < T -> (1 <= n)%nat ->
  (forall s, payoff1 (Fin s) K = Fin (g1 s K)) ->
  (forall s, payoff2 (Fin s) K = Fin (g2 s K)) ->
  (forall s, g1 s K <= g2 s K) ->
  exists x1 x2,
    fst (binomialPricer S K r v q T (Z.of_nat n) payoff1 verbose) = Ok (Fin x1)
    /\ fst (binomialPricer S K r v q T (Z.of_nat n) payoff2 verbose) = Ok (Fin x2)
    /\ x1 <= x2.
Proof.
  intros Hv HT Hn H1 H2 Hle.
  exists (crr_price S K r v q T n g1), (crr_price S K r v q T n g2).
  split; [ | split].
  - apply binomialPricer_valid; auto.
  - apply binomialPricer_valid; auto.
  - apply crr_price_le; auto.
Qed.

Lemma lattice_monotone_in_payoff_witness :
  exists x1 x2,
    fst (binomialPricer 41 40 0.08 0.3 0 0.25 (Z.of_nat 10) callPayoff false)
      = Ok (Fin x1)
    /\ fst (binomialPricer 41 40 0.08 0.3 0 0.25 (Z.of_nat 10)
              (fun s k => (Fin 2 * callPayoff s k)%np) false)
      = Ok (Fin x2)
    /\ x1 <= x2.
Proof.
  apply (lattice_monotone_in_payoff 41 40 0.08 0.3 0 0.25 10
           callPayoff (fun s k => (Fin 2 * callPayoff s k)%np)
           call_payoff (fun s k => 2 * call_payoff s k) false);
    [lra | lra | lia | intro s; reflexivity | intro s; reflexivity | ].
  intro s. pose proof (Rmax_r (s - 40) 0). unfold call_payoff. lra.
Defined.

Lemma crr_call_bounds (S K r v q T : R) (n : nat) :
  0 <= S -> 0 <= K -> 0 < v -> 0 < T -> (1 <= n)%nat ->
  Rmax 0 (S * exp (- q * T) - K * exp (- r * T))
  <= crr_price S K r v q T n call_payoff
  <= S * exp (- q * T).
Proof.
  intros HS HK Hv HT Hn.
  assert (Hh : 0 < T / INR n) by (apply step_pos; assumption).
  assert (Hzero : 0 <= crr_price S K r v q T n call_payoff).
  { replace 0 with (0 * exp (- r * T)) by ring.
    rewrite <- (crr_price_const S K r v q T n) by assumption.
    apply crr_price_le; auto. intros i _. apply Rmax_r. }
  assert (Hput : 0 <= crr_price S K r v q T n put_payoff).
  { replace 0 with (0 * exp (- r * T)) by ring.
    rewrite <- (crr_price_const S K r v q T n) by assumption.
    apply crr_price_le; auto. intros i _. apply Rmax_r. }
  pose proof (crr_parity S K r v q T n Hv HT Hn) as Hpar.
  split.
  - apply Rmax_lub; lra.
  - rewrite <- (crr_price_spot S K r v q T n) by assumption.
    apply crr_price_le; auto. intros i _.
    pose proof (crr_terminal_nonneg S r v q (T / INR n) n i HS) as Ht.
    unfold call_payoff. apply Rmax_lub; lra.
Qed.

(** X12.  For S >= 0 and K >= 0 the lattice call price lies within the
    no-arbitrage bounds:
    max(0, S e^(-q T) - K e^(-r T)) <= price <= S e^(-q T). *)
Theorem lattice_call_bounds (S K r v q T : R) (n : nat) (verbose : bool) :
  0 <= S -> 0 <= K -> 0 < v -> 0 < T -> (1 <= n)%nat ->
  exists c,
    fst (binomialPricer S K r v q T (Z.of_nat n) callPayoff verbose) = Ok (Fin c)
    /\ Rmax 0 (S * exp (- q * T) - K * exp (- r * T)) <= c <= S * exp (- q * T).
Proof.
  intros HS HK Hv HT Hn.
  exists (crr_price S K r v q T n call_payoff).
  split; [apply binomialPricer_valid; auto | ].
  apply crr_call_bounds; assumption.
Qed.

Lemma lattice_call_bounds_witness :
  exists c,
    fst (binomialPricer 41 40 0.08 0.3 0 0.25 (Z.of_nat 10) callPayoff false)
      = Ok (Fin c)
    /\ Rmax 0 (41 * exp (- 0 * 0.25) - 40 * exp (- (0.08) * 0.25)) <= c
       <= 41 * exp (- 0 * 0.25).
Proof.
  apply (lattice_call_bounds 41 40 0.08 0.3 0 0.25 10 false);
    [lra | lra | lra | lra | lia].
Defined.

(** X13.  When every terminal price is on one side of the strike the lattice
    call has its limiting value, exactly: if K <= S d^n (the lowest terminal
    price) the price is S e^(-q T) - K e^(-r T); if S u^n <= K (the highest
    one) the price is 0. *)
Theorem lattice_call_one_sided (S K r v q T : R) (n : nat) (verbose : bool) :
  0 <= S -> 0 < v -> 0 < T -> (1 <= n)%nat ->
  let h := T / INR n in
  (K <= S * exp ((r - q) * h - v * sqrt h) ^ n ->
   fst (binomialPricer S K r v q T (Z.of_nat n) callPayoff verbose)
   = Ok (Fin (S * exp (- q * T) - K * exp (- r * T))))
  /\ (S * exp ((r - q) * h + v * sqrt h) ^ n <= K ->
      fst (binomialPricer S K r v q T (Z.of_nat n) callPayoff verbose)
      = Ok (Fin 0)).
Proof.
  intros HS Hv HT Hn h.
  assert (Hh : 0 < h) by (apply step_pos; assumption).
  rewrite (binomialPricer_valid S K r v q T n callPayoff call_payoff) by auto.
  split; intro Hside; do 2 f_equal.
  - rewrite <- (crr_price_spot S K r v q T n), <- (crr_price_const S K r v q T n K)
      by assumption.
    rewrite (crr_price_ext S K r v q T n Hv HT Hn call_payoff
               (fun s k => (-1) * (fun _ _ => K) s k + (fun s _ => s) s k)).
    + rewrite (crr_price_linear S K r v q T n (-1) (fun _ _ => K) (fun s _ => s)).
      ring.
    + intros i Hi.
      pose proof (crr_terminal_bounds S r v q h n i HS Hv Hh Hi) as [Hlo _].
      unfold crr_d in Hlo. fold h. unfold call_payoff.
      rewrite Rmax_left by lra. ring.
  - replace 0 with (0 * exp (- r * T)) by ring.
    rewrite <- (crr_price_const S K r v q T n 0) by assumption.
    apply crr_price_ext; auto. intros i Hi.
    pose proof (crr_terminal_bounds S r v q h n i HS Hv Hh Hi) as [_ Hhi].
    unfold crr_u in Hhi. fold h. unfold call_payoff.
    rewrite Rmax_right by lra. reflexivity.
Qed.

Lemma lattice_call_one_sided_witness :
  fst (binomialPricer 41 0 0.08 0.3 0 0.25 (Z.of_nat 10) callPayoff false)
  = Ok (Fin (41 * exp (- 0 * 0.25) - 0 * exp (- (0.08) * 0.25))).
Proof.
  apply (proj1 (lattice_call_one_sided 41 0 0.08 0.3 0 0.25 10 false
                  ltac:(lra) ltac:(lra) ltac:(lra) ltac:(lia))).
  apply Rmult_le_pos; [lra | ]. apply pow_le. left. apply exp_pos.
Defined.

(** X14.  The lattice call price is non-increasing in the strike and, for
    non-negative spots, non-decreasing in the spot. *)
Theorem lattice_call_monotone (S1 S2 K1 K2 r v q T : R) (n : nat)
    (verbose : bool) :
  0 < v -> 0 < T -> (1 <= n)%nat ->
  0 <= S1 <= S2 -> K1 <= K2 ->
  exists c11 c12 c21,
    fst (binomialPricer S1 K1 r v q T (Z.of_nat n) callPayoff verbose) = Ok (Fin c11)
    /\ fst (binomialPricer S1 K2 r v q T (Z.of_nat n) callPayoff verbose) = Ok (Fin c12)
    /\ fst (binomialPricer S2 K1 r v q T (Z.of_nat n) callPayoff verbose) = Ok (Fin c21)
    /\ c12 <= c11 <= c21.
Proof.
  intros Hv HT Hn HS HK.
  exists (crr_price S1 K1 r v q T n call_payoff),
         (crr_price S1 K2 r v q T n call_payoff),
         (crr_price S2 K1 r v q T n call_payoff).
  split; [ | split; [ | split]]; try (apply binomialPricer_valid; auto).
  assert (Hh : 0 < T / INR n) by (apply step_pos; assumption).
  pose proof (crr_pstar_range r v q _ Hv Hh) as HP.
  unfold crr_price.
  split; (apply Rmult_le_compat_l; [left; apply exp_pos | ]);
    apply sum_Rle; intros i Hi;
    (apply Rmult_le_compat_l; [apply binomial_mass_nonneg; lra | ]);
    unfold call_payoff; apply Rle_max_compat_r.
  - lra.
  - unfold crr_terminal.
    assert (Hw : 0 <= crr_u r v q (T / INR n) ^ i * crr_d r v q (T / INR n) ^ (n - i)).
    { apply Rmult_le_pos; apply pow_le; left; apply exp_pos. }
    rewrite !Rmult_assoc. nra.
Qed.

Lemma lattice_call_monotone_witness :
  exists c11 c12 c21,
    fst (binomialPricer 41 40 0.08 0.3 0 0.25 (Z.of_nat 10) callPayoff false)
      = Ok (Fin c11)
    /\ fst (binomialPricer 41 45 0.08 0.3 0 0.25 (Z.of_nat 10) callPayoff false)
      = Ok (Fin c12)
    /\ fst (binomialPricer 42 40 0.08 0.3 0 0.25 (Z.of_nat 10) callPayoff false)
      = Ok (Fin c21)
    /\ c12 <= c11 <= c21.
Proof.
  apply (lattice_call_monotone 41 42 40 45 0.08 0.3 0 0.25 10 false);
    [lra | lra | lia | lra | lra].
Defined.

(** X15.  The lattice call price is homogeneous of degree one in spot and
    strike: scaling both by a factor lambda >= 0 scales the price by
    lambda. *)
Theorem lattice_call_homogeneous (lambda S K r v q T : R) (n : nat)
    (verbose : bool) :
  0 <= lambda -> 0 < v -> 0 < T -> (1 <= n)%nat ->
  exists c,
    fst (binomialPricer S K r v q T (Z.of_nat n) callPayoff verbose) = Ok (Fin c)
    /\ fst (binomialPricer (lambda * S) (lambda * K) r v q T (Z.of_nat n)
              callPayoff verbose)
       = Ok (Fin (lambda * c)).
Proof.
  intros Hl Hv HT Hn.
  exists (crr_price S K r v q T n call_payoff).
  split; [apply binomialPricer_valid; auto | ].
  rewrite (binomialPricer_valid _ _ r v q T n callPayoff call_payoff) by auto.
  do 2 f_equal. unfold crr_price.
  set (h := T / INR n).
  assert (Hsum :
    sum_f_R0 (fun i => binomial_mass i n (crr_pstar r v q h)
                       * call_payoff (crr_terminal (lambda * S) r v q h n i)
                           (lambda * K)) n
    = lambda * sum_f_R0 (fun i => binomial_mass i n (crr_pstar r v q h)
                                  * call_payoff (crr_terminal S r v q h n i) K) n).
  { rewrite scal_sum. apply sum_eq. intros i _.
    unfold crr_terminal, call_payoff.
    replace (lambda * S * crr_u r v q h ^ i * crr_d r v q h ^ (n - i) - lambda * K)
      with (lambda * (S * crr_u r v q h ^ i * crr_d r v q h ^ (n - i) - K))
      by ring.
    replace 0 with (lambda * 0) at 1 by ring.
    rewrite RmaxRmult by exact Hl. ring. }
  rewrite Hsum. ring.
Qed.

Lemma lattice_call_homogeneous_witness :
  exists c,
    fst (binomialPricer 41 40 0.08 0.3 0 0.25 (Z.of_nat 10) callPayoff false)
      = Ok (Fin c)
    /\ fst (binomialPricer (100 * 41) (100 * 40) 0.08 0.3 0 0.25 (Z.of_nat 10)
              callPayoff false)
       = Ok (Fin (100 * c)).
Proof.
  apply (lattice_call_homogeneous 100 41 40 0.08 0.3 0 0.25 10 false);
    [lra | lra | lra | lia].
Defined.

(** ** The diagnostic output *)






(** ** More on the closed-form call *)

Lemma np_div_NaN_r (a : float64) : (a / NaN)%np = NaN.
Proof. destruct a; reflexivity. Qed.

Lemma bsm_parity (S K sigma r T delta : R) :
  bsm_call S K sigma r T delta - bsm_put S K sigma r T delta
  = S * exp (- delta * T) - K * exp (- r * T).
Proof. unfold bsm_call, bsm_put. rewrite !Gaussian.cdf_opp. ring. Qed.

(** The formula is what the code computes for every non-zero volatility,
    negative ones included. *)
Lemma blackScholesCall_nonzero_vol (S K sigma r T delta : R) :
  0 < S -> 0 < K -> sigma <> 0 -> 0 < T ->
  blackScholesCall S K sigma r T delta = Ok (Fin (bsm_call S K sigma r T delta)).
Proof.
  intros HS HK Hv HT.
  assert (Hs : sigma * sqrt T <> 0).
  { apply Rmult_integral_contrapositive_currified; [exact Hv | ].
    apply Rgt_not_eq, sqrt_lt_R0, HT. }
  unfold blackScholesCall.
  rewrite py_truediv_ok by lra.
  rewrite np_log_Fin by (apply Rdiv_lt_0_compat; assumption).
  rewrite np_sqrt_Fin by lra.
  cbn [np_mul np_add]. rewrite np_div_Fin by exact Hs.
  np_fin. rewrite d1_agrees. reflexivity.
Qed.

(** X1.  On valid parameters the closed-form call price lies within the
    no-arbitrage bounds:
    max(0, S e^(-delta T) - K e^(-r T)) <= price <= S e^(-delta T). *)
Theorem closed_form_call_bounds (S K sigma r T delta : R) :
  0 < S -> 0 < K -> 0 < sigma -> 0 < T ->
  exists c,
    blackScholesCall S K sigma r T delta = Ok (Fin c)
    /\ Rmax 0 (S * exp (- delta * T) - K * exp (- r * T)) <= c
       <= S * exp (- delta * T).
Proof.
  intros HS HK Hv HT.
  exists (bsm_call S K sigma r T delta).
  split; [apply blackScholesCall_valid; assumption | ].
  pose proof (bsm_call_nonneg S K sigma r T delta HS HK Hv HT) as Hc.
  pose proof (bsm_put_nonneg S K sigma r T delta HS HK Hv HT) as Hp.
  pose proof (bsm_parity S K sigma r T delta) as Hpar.
  split.
  - apply Rmax_lub; lra.
  - unfold bsm_call.
    pose proof (Gaussian.cdf_le_1 (bsm_d1 S K sigma r T delta)) as H1.
    pose proof (Gaussian.cdf_nonneg (bsm_d2 S K sigma r T delta)) as H2.
    pose proof (exp_pos (- delta * T)) as Ha.
    pose proof (exp_pos (- r * T)) as Hb.
    assert (0 < S * exp (- delta * T)) by (apply Rmult_lt_0_compat; assumption).
    assert (0 < K * exp (- r * T)) by (apply Rmult_lt_0_compat; assumption).
    nra.
Qed.

Lemma closed_form_call_bounds_witness :
  exists c,
    blackScholesCall 41 40 0.3 0.08 0.25 0 = Ok (Fin c)
    /\ Rmax 0 (41 * exp (- 0 * 0.25) - 40 * exp (- (0.08) * 0.25)) <= c
       <= 41 * exp (- 0 * 0.25).
Proof. apply (closed_form_call_bounds 41 40 0.3 0.08 0.25 0); lra. Defined.

(** X2.  The closed-form call price is homogeneous of degree one in spot
    and strike: scaling both by lambda > 0 scales the price by lambda. *)
Theorem closed_form_call_homogeneous (lambda S K sigma r T delta : R) :
  0 < lambda -> 0 < S -> 0 < K -> 0 < sigma -> 0 < T ->
  exists c,
    blackScholesCall S K sigma r T delta = Ok (Fin c)
    /\ blackScholesCall (lambda * S) (lambda * K) sigma r T delta
       = Ok (Fin (lambda * c)).
Proof.
  intros Hl HS HK Hv HT.
  exists (bsm_call S K sigma r T delta).
  split; [apply blackScholesCall_valid; assumption | ].
  rewrite blackScholesCall_valid
    by (try assumption; apply Rmult_lt_0_compat; assumption).
  do 2 f_equal. unfold bsm_call, bsm_d2, bsm_d1.
  replace (lambda * S / (lambda * K)) with (S / K) by (field; lra).
  ring.
Qed.

Lemma closed_form_call_homogeneous_witness :
  exists c,
    blackScholesCall 41 40 0.3 0.08 0.25 0 = Ok (Fin c)
    /\ blackScholesCall (100 * 41) (100 * 40) 0.3 0.08 0.25 0
       = Ok (Fin (100 * c)).
Proof. apply (closed_form_call_homogeneous 100 41 40 0.3 0.08 0.25 0); lra. Defined.



(** X4.  A worthless underlying: with S = 0 (K non-zero, sigma and T
    positive) [np.log] gives [-inf], both [norm.cdf] terms vanish and
    [blackScholesCall] returns 0.0 without raising. *)
Theorem closed_form_zero_spot (K sigma r T delta : R) :
  K <> 0 -> 0 < sigma -> 0 < T ->
  blackScholesCall 0 K sigma r T delta = Ok (Fin 0).
Proof.
  intros HK Hv HT.
  pose proof (vol_sqrt_pos sigma T Hv HT) as Hs.
  unfold blackScholesCall. rewrite py_truediv_ok by exact HK.
  replace (0 / K) with 0 by (field; exact HK).
  rewrite np_sqrt_Fin by lra.
  cbn [np_log]. rewrite by_sign_zero. cbn [np_mul np_add np_div].
  destruct (Rlt_dec (sigma * sqrt T) 0) as [Hneg | _]; [lra | ].
  np_fin. do 2 f_equal. ring.
Qed.

Lemma closed_form_zero_spot_witness :
  blackScholesCall 0 40 0.3 0.08 0.25 0 = Ok (Fin 0).
Proof.
  apply (closed_form_zero_spot 40 0.3 0.08 0.25 0); lra.
Defined.

(** X5.  Inputs outside the domain of the formula give NaN, not an error:
    when spot and strike have opposite signs (the logarithm of a negative
    ratio), and when the expiry is negative (the square root of a negative
    number, K non-zero), [blackScholesCall] returns NaN. *)
Theorem closed_form_nan (S K sigma r T delta : R) :
  (S / K < 0 -> blackScholesCall S K sigma r T delta = Ok NaN)
  /\ (K <> 0 -> T < 0 -> blackScholesCall S K sigma r T delta = Ok NaN).
Proof.
  split.
  - intro Hneg.
    assert (HK : K <> 0).
    { intros ->. unfold Rdiv in Hneg. rewrite Rinv_0, Rmult_0_r in Hneg. lra. }
    unfold blackScholesCall. rewrite py_truediv_ok by exact HK.
    cbn [np_log]. rewrite by_sign_neg by exact Hneg. reflexivity.
  - intros HK HT.
    unfold blackScholesCall. rewrite py_truediv_ok by exact HK.
    rewrite np_sqrt_neg by exact HT.
    cbn [np_mul]. rewrite np_div_NaN_r. reflexivity.
Qed.

Lemma closed_form_nan_witness :
  blackScholesCall (-41) 40 0.3 0.08 0.25 0 = Ok NaN
  /\ blackScholesCall 41 40 0.3 0.08 (-1) 0 = Ok NaN.
Proof.
  split.
  - apply (proj1 (closed_form_nan (-41) 40 0.3 0.08 0.25 0)). lra.
  - apply (proj2 (closed_form_nan 41 40 0.3 0.08 (-1) 0)); lra.
Defined.

(** X6.  A negative volatility is accepted silently: for sigma < 0 (S, K, T
    positive) [blackScholesCall] returns
    S e^(-delta T) - K e^(-r T) minus the call price at |sigma|, that is
    minus the put price at |sigma|, a number that is never positive. *)
Theorem closed_form_negative_vol (S K sigma r T delta : R) :
  0 < S -> 0 < K -> sigma < 0 -> 0 < T ->
  exists c c',
    blackScholesCall S K sigma r T delta = Ok (Fin c)
    /\ blackScholesCall S K (- sigma) r T delta = Ok (Fin c')
    /\ c = S * exp (- delta * T) - K * exp (- r * T) - c'
    /\ c <= 0.
Proof.
  intros HS HK Hv HT.
  assert (Hv' : 0 < - sigma) by lra.
  exists (bsm_call S K sigma r T delta), (bsm_call S K (- sigma) r T delta).
  assert (Hs : sigma * sqrt T <> 0).
  { pose proof (vol_sqrt_pos (- sigma) T Hv' HT). lra. }
  assert (Hd1 : bsm_d1 S K sigma r T delta = - bsm_d1 S K (- sigma) r T delta).
  { unfold bsm_d1. field. split; [apply Rgt_not_eq, sqrt_lt_R0, HT | lra]. }
  assert (Hd2 : bsm_d2 S K sigma r T delta = - bsm_d2 S K (- sigma) r T delta).
  { unfold bsm_d2. rewrite Hd1. ring. }
  assert (Hc : bsm_call S K sigma r T delta
               = S * exp (- delta * T) - K * exp (- r * T)
                 - bsm_call S K (- sigma) r T delta).
  { unfold bsm_call. rewrite Hd1, Hd2, !Gaussian.cdf_opp. ring. }
  split; [ | split; [ | split]].
  - apply blackScholesCall_nonzero_vol; try assumption. lra.
  - apply blackScholesCall_valid; assumption.
  - exact Hc.
  - pose proof (bsm_put_nonneg S K (- sigma) r T delta HS HK Hv' HT) as Hp.
    pose proof (bsm_parity S K (- sigma) r T delta) as Hpar.
    lra.
Qed.

Lemma closed_form_negative_vol_witness :
  exists c c',
    blackScholesCall 41 40 (- (0.3)) 0.08 0.25 0 = Ok (Fin c)
    /\ blackScholesCall 41 40 (- - (0.3)) 0.08 0.25 0 = Ok (Fin c')
    /\ c = 41 * exp (- 0 * 0.25) - 40 * exp (- (0.08) * 0.25) - c'
    /\ c <= 0.
Proof. apply (closed_form_negative_vol 41 40 (- (0.3)) 0.08 0.25 0); lra. Defined.

(** ** The lattice under a negative volatility *)



Section NegativeVolatility.

Variables r v q h : R.
Hypothesis v_nonzero : v <> 0.
Hypothesis h_pos : 0 < h.






End NegativeVolatility.




(** ** The convergence cell *)

Section ConvergenceCell.

Variables spot strike rate vol div expiry : R.

(** The same loop, element by element. *)
Fixpoint convergence_run (steps : list Z) (out : list printed)
  : result unit * list printed :=
  match steps with
  | [] => (Ok tt, out)
  | nsteps :: rest =>
      match binomialPricer spot strike rate vol div expiry nsteps callPayoff false with
      | (Raise e, lines) => (Raise e, out ++ map Line lines)
      | (Ok callPrc, lines) =>
          convergence_run rest (out ++ map Line lines ++ [Value callPrc])
      end
  end.

Lemma convergence_loop_by_elements (done steps : list Z) (out : list printed) :
  convergence_loop spot strike rate vol div expiry (done ++ steps)
    (map Z.of_nat (seq (List.length done) (List.length steps))) out
  = convergence_run steps out.
Proof.
  revert done out. induction steps as [ | nsteps rest IH]; intros done out.
  - reflexivity.
  - cbn [List.length seq map convergence_loop convergence_run].
    rewrite Nat2Z.id, app_nth2, Nat.sub_diag by lia. cbn [nth].
    destruct (binomialPricer spot strike rate vol div expiry nsteps callPayoff false)
      as [[callPrc | e] lines]; [ | reflexivity].
    replace (done ++ nsteps :: rest) with ((done ++ [nsteps]) ++ rest)
      by (rewrite <- app_assoc; reflexivity).
    replace (Datatypes.S (List.length done)) with (List.length (done ++ [nsteps]))
      by (rewrite length_app; simpl; lia).
    apply IH.
Qed.

Lemma convergence_cell_by_elements (N : list Z) :
  convergence_cell spot strike rate vol div expiry N = convergence_run N [].
Proof.
  unfold convergence_cell, py_range. rewrite Nat2Z.id.
  apply (convergence_loop_by_elements [] N []).
Qed.

Lemma binomialPricer_quiet (n : Z) (payoff : float64 -> R -> float64) :
  snd (binomialPricer spot strike rate vol div expiry n payoff false) = [].
Proof.
  destruct (Z.eq_dec n 0) as [-> | Hn].
  - rewrite binomialPricer_zero_steps. reflexivity.
  - rewrite binomialPricer_returns by exact Hn. reflexivity.
Qed.

Lemma convergence_run_valid (steps : list Z) (out : list printed) :
  0 < vol -> 0 < expiry -> Forall (fun n => (1 <= n)%Z) steps ->
  convergence_run steps out
  = (Ok tt,
     out ++ map (fun n => Value (Fin (crr_price spot strike rate vol div expiry
                                        (Z.to_nat n) call_payoff))) steps).
Proof.
  intros Hv HT Hall. revert out.
  induction Hall as [ | n rest Hn Hrest IH]; intro out.
  - simpl. rewrite app_nil_r. reflexivity.
  - cbn [convergence_run map].
    pose proof (binomialPricer_quiet n callPayoff) as Hq.
    pose proof (binomialPricer_valid spot strike rate vol div expiry (Z.to_nat n)
                  callPayoff call_payoff false Hv HT ltac:(lia)
                  (fun s => eq_refl)) as Hval.
    rewrite Z2Nat.id in Hval by lia.
    destruct (binomialPricer spot strike rate vol div expiry n callPayoff false)
      as [res lines].
    cbn [fst snd] in Hq, Hval. subst res lines.
    rewrite IH. cbn [map app]. rewrite <- app_assoc. reflexivity.
Qed.


End ConvergenceCell.

(** X19.  With a positive volatility and expiry and step counts that are
    all at least 1, the convergence cell raises nothing and prints exactly
    one value per step count, in the order of the list: the lattice call
    price for that number of steps; for non-negative spot and strike each
    printed price is within the no-arbitrage bounds. *)
Theorem convergence_cell_prints_prices (spot strike rate vol div expiry : R)
    (N : list Z) :
  0 <= spot -> 0 <= strike -> 0 < vol -> 0 < expiry ->
  Forall (fun n => (1 <= n)%Z) N ->
  exists prices : list R,
    convergence_cell spot strike rate vol div expiry N
    = (Ok tt, map (fun x => Value (Fin x)) prices)
    /\ List.length prices = List.length N
    /\ (forall i n, nth_error N i = Some n ->
          exists x, nth_error prices i = Some x
            /\ fst (binomialPricer spot strike rate vol div expiry n callPayoff false)
               = Ok (Fin x))
    /\ Forall (fun x =>
                 Rmax 0 (spot * exp (- div * expiry) - strike * exp (- rate * expiry))
                 <= x <= spot * exp (- div * expiry)) prices.
Proof.
  intros HS HK Hv HT Hall.
  exists (map (fun n => crr_price spot strike rate vol div expiry (Z.to_nat n)
                          call_payoff) N).
  split; [ | split; [ | split]].
  - rewrite convergence_cell_by_elements, convergence_run_valid by assumption.
    rewrite map_map. reflexivity.
  - apply length_map.
  - intros i n Hi. eexists. split.
    + rewrite nth_error_map, Hi. reflexivity.
    + assert (Hn : (1 <= n)%Z).
      { rewrite Forall_forall in Hall. apply Hall. eapply nth_error_In, Hi. }
      rewrite <- (Z2Nat.id n) at 1 by lia.
      apply binomialPricer_valid; try assumption; [lia | reflexivity].
  - apply Forall_forall. intros x Hx. apply in_map_iff in Hx.
    destruct Hx as [n [<- Hn]].
    rewrite Forall_forall in Hall. specialize (Hall n Hn).
    apply crr_call_bounds; try assumption. lia.
Qed.

Lemma convergence_cell_prints_prices_witness :
  exists prices : list R,
    convergence_cell 41 40 0.08 0.3 0 0.25 notebook_N
    = (Ok tt, map (fun x => Value (Fin x)) prices)
    /\ List.length prices = List.length notebook_N
    /\ (forall i n, nth_error notebook_N i = Some n ->
          exists x, nth_error prices i = Some x
            /\ fst (binomialPricer 41 40 0.08 0.3 0 0.25 n callPayoff false)
               = Ok (Fin x))
    /\ Forall (fun x =>
                 Rmax 0 (41 * exp (- 0 * 0.25) - 40 * exp (- (0.08) * 0.25))
                 <= x <= 41 * exp (- 0 * 0.25)) prices.
Proof.
  apply (convergence_cell_prints_prices 41 40 0.08 0.3 0 0.25 notebook_N);
    [lra | lra | lra | lra | ].
  unfold notebook_N. repeat constructor; lia.
Defined.



(** ** Sensitivities of the closed-form call *)

Lemma cdf_comp_deriv (u : R -> R) (x u' : R) :
  derivable_pt_lim u x u' ->
  derivable_pt_lim (fun t => Gaussian.cdf (u t)) x (Gaussian.pdf (u x) * u').
Proof.
  intro Hu.
  apply (derivable_pt_lim_comp u Gaussian.cdf x u' (Gaussian.pdf (u x)) Hu).
  apply Gaussian.cdf_deriv.
Qed.

Lemma d1_spot_deriv (S K sigma r T delta : R) :
  0 < S -> 0 < K -> sigma * sqrt T <> 0 ->
  derivable_pt_lim (fun t => bsm_d1 t K sigma r T delta) S
    (/ S / (sigma * sqrt T)).
Proof.
  intros HS HK Hs. unfold bsm_d1.
  apply (derivable_pt_lim_scal_right
           (fun t => ln (t / K) + (r - delta + 0.5 * sigma ^ 2) * T)).
  replace (/ S) with (/ S + 0) by ring.
  apply (derivable_pt_lim_plus (fun t => ln (t / K))
           (fct_cte ((r - delta + 0.5 * sigma ^ 2) * T))).
  - replace (/ S) with (/ (S / K) * (1 * / K)) by (field; lra).
    apply (derivable_pt_lim_comp (fun t => t / K) ln).
    + apply (derivable_pt_lim_scal_right id). apply derivable_pt_lim_id.
    + apply derivable_pt_lim_ln. apply Rdiv_lt_0_compat; assumption.
  - apply derivable_pt_lim_const.
Qed.

Lemma d1_strike_deriv (S K sigma r T delta : R) :
  0 < S -> 0 < K -> sigma * sqrt T <> 0 ->
  derivable_pt_lim (fun k => bsm_d1 S k sigma r T delta) K
    (- / K / (sigma * sqrt T)).
Proof.
  intros HS HK Hs. unfold bsm_d1.
  apply (derivable_pt_lim_scal_right
           (fun k => ln (S / k) + (r - delta + 0.5 * sigma ^ 2) * T)).
  replace (- / K) with (- / K + 0) by ring.
  apply (derivable_pt_lim_plus (fun k => ln (S / k))
           (fct_cte ((r - delta + 0.5 * sigma ^ 2) * T))).
  - replace (- / K) with (/ (S / K) * ((0 * K - 1 * S) / Rsqr K))
      by (unfold Rsqr; field; lra).
    apply (derivable_pt_lim_comp (fun k => S / k) ln).
    + apply (derivable_pt_lim_div (fct_cte S) id).
      * apply derivable_pt_lim_const.
      * apply derivable_pt_lim_id.
      * unfold id. lra.
    + apply derivable_pt_lim_ln. apply Rdiv_lt_0_compat; assumption.
  - apply derivable_pt_lim_const.
Qed.

(** The two density terms of the price balance. *)
Lemma density_balance (S K sigma r T delta : R) :
  0 < S -> 0 < K -> 0 < sigma -> 0 < T ->
  S * exp (- delta * T) * Gaussian.pdf (bsm_d1 S K sigma r T delta)
  = K * exp (- r * T) * Gaussian.pdf (bsm_d2 S K sigma r T delta).
Proof.
  intros HS HK Hv HT.
  pose proof (d_square_gap S K sigma r T delta Hv HT) as Hgap.
  pose proof (forward_ratio S K r T delta HS HK) as Hfwd.
  unfold Gaussian.pdf, Gaussian.kernel.
  set (d1 := bsm_d1 S K sigma r T delta) in *.
  set (d2 := bsm_d2 S K sigma r T delta) in *.
  set (L := ln (S / K) + (r - delta) * T) in *.
  replace (- (d1 * d1) / 2) with (- (d2 * d2) / 2 + - L) by lra.
  rewrite exp_plus, <- Hfwd, exp_Ropp.
  pose proof (exp_pos L). pose proof Gaussian.half_mass_pos.
  field. lra.
Qed.

(** Derivative of [a(x) Phi(d1(x)) - b(x) Phi(d2(x))]. *)
Lemma price_form_deriv (aF bF d1F d2F : R -> R) (x a' b' D1 D2 : R) :
  derivable_pt_lim aF x a' -> derivable_pt_lim bF x b' ->
  derivable_pt_lim d1F x D1 -> derivable_pt_lim d2F x D2 ->
  derivable_pt_lim
    (fun t => aF t * Gaussian.cdf (d1F t) - bF t * Gaussian.cdf (d2F t)) x
    ((a' * Gaussian.cdf (d1F x) + aF x * (Gaussian.pdf (d1F x) * D1))
     - (b' * Gaussian.cdf (d2F x) + bF x * (Gaussian.pdf (d2F x) * D2))).
Proof.
  intros Ha Hb H1 H2.
  apply (derivable_pt_lim_minus
           (fun t => aF t * Gaussian.cdf (d1F t))
           (fun t => bF t * Gaussian.cdf (d2F t))).
  - apply (derivable_pt_lim_mult aF (fun t => Gaussian.cdf (d1F t)));
      [exact Ha | apply cdf_comp_deriv, H1].
  - apply (derivable_pt_lim_mult bF (fun t => Gaussian.cdf (d2F t)));
      [exact Hb | apply cdf_comp_deriv, H2].
Qed.

Lemma shift_deriv (f : R -> R) (x l c : R) :
  derivable_pt_lim f x l -> derivable_pt_lim (fun t => f t - c) x l.
Proof.
  intro H. replace l with (l - 0) by ring.
  apply (derivable_pt_lim_minus f (fct_cte c)); [exact H | apply derivable_pt_lim_const].
Qed.

Lemma scale_deriv (c x : R) : derivable_pt_lim (fun t => t * c) x c.
Proof.
  assert (H : derivable_pt_lim (fun t => t * c) x (1 * c))
    by (apply (derivable_pt_lim_scal_right id); apply derivable_pt_lim_id).
  rewrite Rmult_1_l in H. exact H.
Qed.

(** Delta: the derivative of the price in the spot is [e^(-delta T) Phi(d1)]. *)
Lemma bsm_call_spot_deriv (S K sigma r T delta : R) :
  0 < S -> 0 < K -> 0 < sigma -> 0 < T ->
  derivable_pt_lim (fun t => bsm_call t K sigma r T delta) S
    (exp (- delta * T) * Gaussian.cdf (bsm_d1 S K sigma r T delta)).
Proof.
  intros HS HK Hv HT.
  pose proof (vol_sqrt_pos sigma T Hv HT) as Hs.
  pose proof (density_balance S K sigma r T delta HS HK Hv HT) as Hbal.
  assert (Hd := d1_spot_deriv S K sigma r T delta HS HK (Rgt_not_eq _ _ Hs)).
  pose proof (price_form_deriv
                (fun t => t * exp (- delta * T)) (fct_cte (K * exp (- r * T)))
                (fun t => bsm_d1 t K sigma r T delta)
                (fun t => bsm_d2 t K sigma r T delta) S _ _ _ _
                (scale_deriv _ S) (derivable_pt_lim_const _ S) Hd
                (shift_deriv _ S _ (sigma * sqrt T) Hd)) as H.
  cbv beta in H. unfold fct_cte in H.
  replace (exp (- delta * T) * Gaussian.cdf (bsm_d1 S K sigma r T delta))
    with (exp (- delta * T) * Gaussian.cdf (bsm_d1 S K sigma r T delta) +
          S * exp (- delta * T) *
          (Gaussian.pdf (bsm_d1 S K sigma r T delta) * (/ S / (sigma * sqrt T))) -
          (0 * Gaussian.cdf (bsm_d2 S K sigma r T delta) +
           K * exp (- r * T) *
           (Gaussian.pdf (bsm_d2 S K sigma r T delta) * (/ S / (sigma * sqrt T))))).
  - exact H.
  - rewrite <- !Rmult_assoc, Hbal. ring.
Qed.

(** Minus the derivative in the strike is [e^(-r T) Phi(d2)]. *)
Lemma bsm_call_strike_deriv (S K sigma r T delta : R) :
  0 < S -> 0 < K -> 0 < sigma -> 0 < T ->
  derivable_pt_lim (fun k => bsm_call S k sigma r T delta) K
    (- (exp (- r * T) * Gaussian.cdf (bsm_d2 S K sigma r T delta))).
Proof.
  intros HS HK Hv HT.
  pose proof (vol_sqrt_pos sigma T Hv HT) as Hs.
  pose proof (density_balance S K sigma r T delta HS HK Hv HT) as Hbal.
  assert (Hd := d1_strike_deriv S K sigma r T delta HS HK (Rgt_not_eq _ _ Hs)).
  pose proof (price_form_deriv
                (fct_cte (S * exp (- delta * T))) (fun k => k * exp (- r * T))
                (fun k => bsm_d1 S k sigma r T delta)
                (fun k => bsm_d2 S k sigma r T delta) K _ _ _ _
                (derivable_pt_lim_const _ K) (scale_deriv _ K) Hd
                (shift_deriv _ K _ (sigma * sqrt T) Hd)) as H.
  cbv beta in H. unfold fct_cte in H.
  replace (- (exp (- r * T) * Gaussian.cdf (bsm_d2 S K sigma r T delta)))
    with (0 * Gaussian.cdf (bsm_d1 S K sigma r T delta) +
          S * exp (- delta * T) *
          (Gaussian.pdf (bsm_d1 S K sigma r T delta) * (- / K / (sigma * sqrt T))) -
          (exp (- r * T) * Gaussian.cdf (bsm_d2 S K sigma r T delta) +
           K * exp (- r * T) *
           (Gaussian.pdf (bsm_d2 S K sigma r T delta) * (- / K / (sigma * sqrt T))))).
  - exact H.
  - rewrite <- !Rmult_assoc, Hbal. ring.
Qed.

Lemma d1_vol_derivable (S K sigma r T delta : R) :
  sigma * sqrt T <> 0 ->
  exists D, derivable_pt_lim (fun v => bsm_d1 S K v r T delta) sigma D.
Proof.
  intro Hs. unfold bsm_d1. eexists.
  apply (derivable_pt_lim_div
           (fun v => ln (S / K) + (r - delta + 0.5 * v ^ 2) * T)
           (fun v => v * sqrt T)).
  - apply (derivable_pt_lim_plus (fct_cte (ln (S / K)))
             (fun v => (r - delta + 0.5 * v ^ 2) * T)).
    + apply derivable_pt_lim_const.
    + apply (derivable_pt_lim_scal_right (fun v => r - delta + 0.5 * v ^ 2)).
      apply (derivable_pt_lim_plus (fct_cte (r - delta)) (fun v => 0.5 * v ^ 2)).
      * apply derivable_pt_lim_const.
      * apply (derivable_pt_lim_scal (fun v => v ^ 2) 0.5).
        apply derivable_pt_lim_pow.
  - apply scale_deriv.
  - exact Hs.
Qed.

(** Vega: the derivative in the volatility is [K e^(-r T) pdf(d2) sqrt T]. *)
Lemma bsm_call_vol_deriv (S K sigma r T delta : R) :
  0 < S -> 0 < K -> 0 < sigma -> 0 < T ->
  derivable_pt_lim (fun v => bsm_call S K v r T delta) sigma
    (K * exp (- r * T) * Gaussian.pdf (bsm_d2 S K sigma r T delta) * sqrt T).
Proof.
  intros HS HK Hv HT.
  pose proof (vol_sqrt_pos sigma T Hv HT) as Hs.
  pose proof (density_balance S K sigma r T delta HS HK Hv HT) as Hbal.
  destruct (d1_vol_derivable S K sigma r T delta (Rgt_not_eq _ _ Hs)) as [D Hd].
  assert (Hd2 : derivable_pt_lim (fun v => bsm_d2 S K v r T delta) sigma (D - sqrt T)).
  { unfold bsm_d2.
    apply (derivable_pt_lim_minus (fun v => bsm_d1 S K v r T delta)
             (fun v => v * sqrt T)); [exact Hd | apply scale_deriv]. }
  pose proof (price_form_deriv
                (fct_cte (S * exp (- delta * T))) (fct_cte (K * exp (- r * T)))
                (fun v => bsm_d1 S K v r T delta)
                (fun v => bsm_d2 S K v r T delta) sigma _ _ _ _
                (derivable_pt_lim_const _ sigma) (derivable_pt_lim_const _ sigma)
                Hd Hd2) as H.
  cbv beta in H. unfold fct_cte in H.
  replace (K * exp (- r * T) * Gaussian.pdf (bsm_d2 S K sigma r T delta) * sqrt T)
    with (0 * Gaussian.cdf (bsm_d1 S K sigma r T delta) +
          S * exp (- delta * T) * (Gaussian.pdf (bsm_d1 S K sigma r T delta) * D) -
          (0 * Gaussian.cdf (bsm_d2 S K sigma r T delta) +
           K * exp (- r * T) *
           (Gaussian.pdf (bsm_d2 S K sigma r T delta) * (D - sqrt T)))).
  - exact H.
  - rewrite <- !Rmult_assoc, Hbal. ring.
Qed.

(** Mean value bounds on an increment. *)
Lemma increment_bounds (f f' : R -> R) (a b lo hi : R) :
  a <= b ->
  (forall c, a <= c <= b -> derivable_pt_lim f c (f' c)) ->
  (forall c, a < c < b -> lo <= f' c <= hi) ->
  lo * (b - a) <= f b - f a <= hi * (b - a).
Proof.
  intros Hab Hd Hb.
  destruct Hab as [Hlt | ->]; [ | lra].
  destruct (MVT_cor2 f f' a b Hlt Hd) as [c [Hc Hin]].
  specialize (Hb c Hin). rewrite Hc. nra.
Qed.

(** X21.  The closed-form call price is non-decreasing in the spot, and
    rises by at most e^(-delta T) per unit of spot:
    0 <= C(S2) - C(S1) <= e^(-delta T) (S2 - S1) for 0 < S1 <= S2. *)
Theorem closed_form_call_monotone_in_spot (S1 S2 K sigma r T delta : R) :
  0 < S1 <= S2 -> 0 < K -> 0 < sigma -> 0 < T ->
  exists c1 c2,
    blackScholesCall S1 K sigma r T delta = Ok (Fin c1)
    /\ blackScholesCall S2 K sigma r T delta = Ok (Fin c2)
    /\ 0 <= c2 - c1 <= exp (- delta * T) * (S2 - S1).
Proof.
  intros [HS1 HS] HK Hv HT.
  exists (bsm_call S1 K sigma r T delta), (bsm_call S2 K sigma r T delta).
  split; [ | split]; try (apply blackScholesCall_valid; assumption || lra).
  pose proof (exp_pos (- delta * T)) as He.
  pose proof (increment_bounds (fun t => bsm_call t K sigma r T delta)
                (fun t => exp (- delta * T) * Gaussian.cdf (bsm_d1 t K sigma r T delta))
                S1 S2 0 (exp (- delta * T)) HS) as Hinc.
  rewrite Rmult_0_l in Hinc. apply Hinc.
  - intros c Hc. apply bsm_call_spot_deriv; try assumption. lra.
  - intros c _.
    pose proof (Gaussian.cdf_nonneg (bsm_d1 c K sigma r T delta)).
    pose proof (Gaussian.cdf_le_1 (bsm_d1 c K sigma r T delta)).
    nra.
Qed.

Lemma closed_form_call_monotone_in_spot_witness :
  exists c1 c2,
    blackScholesCall 41 40 0.3 0.08 0.25 0 = Ok (Fin c1)
    /\ blackScholesCall 42 40 0.3 0.08 0.25 0 = Ok (Fin c2)
    /\ 0 <= c2 - c1 <= exp (- 0 * 0.25) * (42 - 41).
Proof.
  apply (closed_form_call_monotone_in_spot 41 42 40 0.3 0.08 0.25 0); lra.
Defined.

(** X22.  The closed-form call price is non-increasing in the strike, and
    falls by at most e^(-r T) per unit of strike:
    - e^(-r T) (K2 - K1) <= C(K2) - C(K1) <= 0 for 0 < K1 <= K2. *)
Theorem closed_form_call_monotone_in_strike (S K1 K2 sigma r T delta : R) :
  0 < S -> 0 < K1 <= K2 -> 0 < sigma -> 0 < T ->
  exists c1 c2,
    blackScholesCall S K1 sigma r T delta = Ok (Fin c1)
    /\ blackScholesCall S K2 sigma r T delta = Ok (Fin c2)
    /\ - exp (- r * T) * (K2 - K1) <= c2 - c1 <= 0.
Proof.
  intros HS [HK1 HK] Hv HT.
  exists (bsm_call S K1 sigma r T delta), (bsm_call S K2 sigma r T delta).
  split; [ | split]; try (apply blackScholesCall_valid; assumption || lra).
  pose proof (exp_pos (- r * T)) as He.
  pose proof (increment_bounds (fun k => bsm_call S k sigma r T delta)
                (fun k => - (exp (- r * T) * Gaussian.cdf (bsm_d2 S k sigma r T delta)))
                K1 K2 (- exp (- r * T)) 0 HK) as Hinc.
  rewrite Rmult_0_l in Hinc. apply Hinc.
  - intros c Hc. apply bsm_call_strike_deriv; try assumption. lra.
  - intros c _.
    pose proof (Gaussian.cdf_nonneg (bsm_d2 S c sigma r T delta)).
    pose proof (Gaussian.cdf_le_1 (bsm_d2 S c sigma r T delta)).
    nra.
Qed.

Lemma closed_form_call_monotone_in_strike_witness :
  exists c1 c2,
    blackScholesCall 41 40 0.3 0.08 0.25 0 = Ok (Fin c1)
    /\ blackScholesCall 41 45 0.3 0.08 0.25 0 = Ok (Fin c2)
    /\ - exp (- (0.08) * 0.25) * (45 - 40) <= c2 - c1 <= 0.
Proof.
  apply (closed_form_call_monotone_in_strike 41 40 45 0.3 0.08 0.25 0); lra.
Defined.

(** X23.  The closed-form call price is non-decreasing in the volatility:
    C(sigma1) <= C(sigma2) for 0 < sigma1 <= sigma2. *)
Theorem closed_form_call_monotone_in_vol (S K sigma1 sigma2 r T delta : R) :
  0 < S -> 0 < K -> 0 < sigma1 <= sigma2 -> 0 < T ->
  exists c1 c2,
    blackScholesCall S K sigma1 r T delta = Ok (Fin c1)
    /\ blackScholesCall S K sigma2 r T delta = Ok (Fin c2)
    /\ c1 <= c2.
Proof.
  intros HS HK [Hv1 Hv] HT.
  exists (bsm_call S K sigma1 r T delta), (bsm_call S K sigma2 r T delta).
  split; [ | split]; try (apply blackScholesCall_valid; assumption || lra).
  apply (Gaussian.deriv_nonneg_le (fun v => bsm_call S K v r T delta)
           (fun v => K * exp (- r * T) * Gaussian.pdf (bsm_d2 S K v r T delta)
                     * sqrt T)); [exact Hv | | ].
  - intros c Hc. apply bsm_call_vol_deriv; try assumption. lra.
  - intros c _.
    apply Rmult_le_pos; [ | apply sqrt_pos].
    apply Rmult_le_pos.
    + apply Rmult_le_pos; [lra | left; apply exp_pos].
    + unfold Gaussian.pdf. left.
      apply Rdiv_lt_0_compat; [apply Gaussian.kernel_pos | ].
      pose proof Gaussian.half_mass_pos. lra.
Qed.

Lemma closed_form_call_monotone_in_vol_witness :
  exists c1 c2,
    blackScholesCall 41 40 0.3 0.08 0.25 0 = Ok (Fin c1)
    /\ blackScholesCall 41 40 0.4 0.08 0.25 0 = Ok (Fin c2)
    /\ c1 <= c2.
Proof.
  apply (closed_form_call_monotone_in_vol 41 40 0.3 0.4 0.08 0.25 0); lra.
Defined.

(** ** The payoffs *)

(** X24.  At any terminal price at most one of the two payoffs is positive,
    the call pays no more than the terminal price when the strike is
    non-negative, and the put pays no more than the strike when the
    terminal price is non-negative. *)
Theorem payoff_bounds (ST K : R) :
  exists c p,
    callPayoff (Fin ST) K = Fin c
    /\ putPayoff (Fin ST) K = Fin p
    /\ c * p = 0
    /\ (0 <= ST -> 0 <= K -> c <= ST)
    /\ (0 <= ST -> 0 <= K -> p <= K).
Proof.
  exists (call_payoff ST K), (put_payoff ST K).
  split; [reflexivity | split; [reflexivity | ]].
  unfold call_payoff, put_payoff, Rmax.
  destruct (Rle_dec (ST - K) 0), (Rle_dec (K - ST) 0);
    repeat split; intros; nra.
Qed.

Lemma payoff_bounds_witness :
  exists c p,
    callPayoff (Fin 41) 40 = Fin c
    /\ putPayoff (Fin 41) 40 = Fin p
    /\ c * p = 0
    /\ (0 <= 41 -> 0 <= 40 -> c <= 41)
    /\ (0 <= 41 -> 0 <= 40 -> p <= 40).
Proof. apply (payoff_bounds 41 40). Defined.
